(** * Answer-similarity scoring engine

    A shallow embedding of [api/compare.ts] (the serverless handler; the
    Express variant [server.js] carries the same [jaroWinkler], [normalize]
    and scoring code): text normalisation, the Jaro-Winkler similarity and
    the fusion of the lexical score with the semantic score of the embedding
    provider into a decision.

    JavaScript strings are sequences of UTF-16 code units, arrays are lists
    read with [!!] (an index out of range reads [undefined], here [None]) and
    written with [<[i:=x]>]; numbers are kept abstract behind [JSNumber],
    with two instances: IEEE binary64 (what the engine runs on) and exact
    rationals (the arithmetic the formulas are written in). *)

From Stdlib Require Import ZArith QArith Floats Lia Lqa String Ascii.
From stdpp Require Import base option numbers list.

(** ** Numbers *)

(** The operations of JavaScript numbers that the engine uses. *)
Record JSNumber := {
  num : Type;
  of_nat : nat -> num;            (* an integer counter or length, as a number *)
  nadd : num -> num -> num;
  nsub : num -> num -> num;
  nmul : num -> num -> num;
  ndiv : num -> num -> num;
  nge : num -> num -> bool;       (* x >= y *)
  num_falsy : num -> bool;        (* !x, for a number x *)
  lit_0_1 : num;                  (* the literals 0.1, 0.2, 0.8 and 0.75 *)
  lit_0_2 : num;
  lit_0_8 : num;
  lit_0_75 : num
}.

Declare Scope num_scope.
Delimit Scope num_scope with num.
Notation "x + y" := (nadd _ x y) : num_scope.
Notation "x - y" := (nsub _ x y) : num_scope.
Notation "x * y" := (nmul _ x y) : num_scope.
Notation "x / y" := (ndiv _ x y) : num_scope.
Notation "x >=? y" := (nge _ x y) (at level 70) : num_scope.

(** IEEE 754 binary64, round to nearest even: the numbers of JavaScript. *)
Definition binary64 : JSNumber := {|
  num := float;
  of_nat := fun n => PrimFloat.of_uint63 (Uint63.of_Z (Z.of_nat n));
  nadd := PrimFloat.add;
  nsub := PrimFloat.sub;
  nmul := PrimFloat.mul;
  ndiv := PrimFloat.div;
  nge := fun x y => PrimFloat.leb y x;
  num_falsy := fun x => PrimFloat.eqb x 0%float || PrimFloat.is_nan x;
  lit_0_1 := 0x1.999999999999ap-4%float;
  lit_0_2 := 0x1.999999999999ap-3%float;
  lit_0_8 := 0x1.999999999999ap-1%float;
  lit_0_75 := 0.75%float
|}.

(** Exact rational arithmetic. *)
Definition exact : JSNumber := {|
  num := Q;
  of_nat := fun n => inject_Z (Z.of_nat n);
  nadd := Qplus;
  nsub := Qminus;
  nmul := Qmult;
  ndiv := Qdiv;
  nge := fun x y => Qle_bool y x;
  num_falsy := fun x => Qeq_bool x 0%Q;
  lit_0_1 := (1 # 10)%Q;
  lit_0_2 := (2 # 10)%Q;
  lit_0_8 := (8 # 10)%Q;
  lit_0_75 := (75 # 100)%Q
|}.

(** ** Strings *)

Abbreviation code_unit := N.
Abbreviation jsstring := (list code_unit).

(** An ASCII literal as a JavaScript string. *)
Definition js (s : string) : jsstring :=
  map N_of_ascii (list_ascii_of_string s).

(** [a !== b] on the results of indexing a string. *)
Definition differ (a b : option code_unit) : bool := negb (bool_decide (a = b)).

(** The truth value of a slot of a flag array ([undefined] is falsy). *)
Definition flag (l : list bool) (k : nat) : bool := default false (l !! k).

(** ** jaroWinkler *)

(** [Math.floor(Math.max(m, n) / 2) - 1]. *)
Definition matchWindow (m n : nat) : Z :=
  (Z.max (Z.of_nat m) (Z.of_nat n) / 2 - 1)%Z.

(** [Math.max(0, i - matchWindow)] and [Math.min(i + matchWindow + 1, n)]. *)
Definition scan_start (i : nat) (w : Z) : Z := Z.max 0 (Z.of_nat i - w)%Z.
Definition scan_end (i : nat) (w : Z) (n : nat) : Z :=
  Z.min (Z.of_nat i + w + 1)%Z (Z.of_nat n).

(** The inner loop [for (let j = start; j < end; j++)] with [cnt] iterations
    left: the first [j] that is neither claimed nor different ends it. *)
Fixpoint scan (s2 : jsstring) (s2Matches : list bool) (c : option code_unit)
    (j cnt : nat) : option nat :=
  match cnt with
  | O => None
  | S cnt' =>
      if flag s2Matches j || differ c (s2 !! j)
      then scan s2 s2Matches c (S j) cnt'
      else Some j
  end.

Record match_state := {
  s1Matches : list bool;
  s2Matches : list bool;
  matches : nat
}.

(** One iteration of the matching loop, at position [i] of [s1]. *)
Definition match_step (s1 s2 : jsstring) (w : Z) (st : match_state) (i : nat) : match_state :=
  let start := scan_start i w in
  let end_ := scan_end i w (length s2) in
  match scan s2 (s2Matches st) (s1 !! i) (Z.to_nat start) (Z.to_nat (end_ - start)%Z) with
  | Some j =>
      {| s1Matches := <[i:=true]> (s1Matches st);
         s2Matches := <[j:=true]> (s2Matches st);
         matches := S (matches st) |}
  | None => st
  end.

Definition match_init (m n : nat) : match_state :=
  {| s1Matches := replicate m false; s2Matches := replicate n false; matches := 0 |}.

(** The state after the first [cnt] iterations of [for (let i = 0; i < m; i++)]. *)
Definition match_loop (s1 s2 : jsstring) (cnt : nat) : match_state :=
  foldl (match_step s1 s2 (matchWindow (length s1) (length s2)))
        (match_init (length s1) (length s2)) (seq 0 cnt).

Definition matching_pass (s1 s2 : jsstring) : match_state :=
  match_loop s1 s2 (length s1).

(** [while (!s2Matches[k]) k++], on the slots from [k] on. Past the end every
    read is [undefined], so the loop never leaves: [None]. *)
Fixpoint skip_unmatched (rest : list bool) (k : nat) : option nat :=
  match rest with
  | [] => None
  | true :: _ => Some k
  | false :: rest' => skip_unmatched rest' (S k)
  end.

(** One iteration of the transposition loop; the state is [(k, transpositions)]. *)
Definition trans_step (s1 s2 : jsstring) (m1 m2 : list bool)
    (st : option (nat * nat)) (i : nat) : option (nat * nat) :=
  '(k, t) ← st;
  if flag m1 i then
    k' ← skip_unmatched (drop k m2) k;
    Some (S k', if differ (s1 !! i) (s2 !! k') then S t else t)
  else Some (k, t).

Definition trans_loop (s1 s2 : jsstring) (m1 m2 : list bool) (cnt : nat) : option (nat * nat) :=
  foldl (trans_step s1 s2 m1 m2) (Some (0, 0)) (seq 0 cnt).

Definition transposition_pass (s1 s2 : jsstring) (m1 m2 : list bool) : option nat :=
  snd <$> trans_loop s1 s2 m1 m2 (length s1).

(** The prefix loop, [cnt] iterations left: stops at the first mismatch. *)
Fixpoint prefix_loop (s1 s2 : jsstring) (i cnt prefix : nat) : nat :=
  match cnt with
  | O => prefix
  | S cnt' =>
      if differ (s1 !! i) (s2 !! i) then prefix
      else prefix_loop s1 s2 (S i) cnt' (S prefix)
  end.

Definition common_prefix (s1 s2 : jsstring) : nat :=
  prefix_loop s1 s2 0 (Nat.min (Nat.min (length s1) (length s2)) 4) 0.

Section JaroWinkler.
Context (A : JSNumber).
Local Open Scope num_scope.
Local Abbreviation Number := (of_nat A).

(** The two closing formulas of [jaroWinkler]. *)
Definition jaro_score (m n matches transpositions : nat) : num A :=
  (Number matches / Number m + Number matches / Number n
   + (Number matches - Number transpositions / Number 2) / Number matches) / Number 3.

Definition winkler (jaro : num A) (prefix : nat) : num A :=
  jaro + Number prefix * lit_0_1 A * (Number 1 - jaro).

(** [None] stands for a run that does not return. *)
Definition jaroWinkler (s1 s2 : jsstring) : option (num A) :=
  let m := length s1 in
  let n := length s2 in
  if (m =? 0)%nat && (n =? 0)%nat then Some (Number 1)
  else if (m =? 0)%nat || (n =? 0)%nat then Some (Number 0)
  else
    let st := matching_pass s1 s2 in
    if (matches st =? 0)%nat then Some (Number 0)
    else
      transpositions ← transposition_pass s1 s2 (s1Matches st) (s2Matches st);
      let jaro := jaro_score m n (matches st) transpositions in
      Some (winkler jaro (common_prefix s1 s2)).
End JaroWinkler.


(** ** normalize *)

(** The code units matched by [\s] and stripped by [trim]: ECMAScript's
    WhiteSpace and LineTerminator (tab, LF, VT, FF, CR, space, NBSP, the
    Unicode space separators, LS, PS and the byte order mark). *)
Definition is_space (c : code_unit) : bool :=
  match c with
  | 9 | 10 | 11 | 12 | 13 | 32 | 160 | 5760 | 8232 | 8233 | 8239 | 8287
  | 12288 | 65279 => true
  | _ => (8192 <=? c) && (c <=? 8202)
  end%N.

Definition space : code_unit := 32%N.

Fixpoint trimStart (s : jsstring) : jsstring :=
  match s with
  | [] => []
  | c :: s' => if is_space c then trimStart s' else s
  end.

Definition trimEnd (s : jsstring) : jsstring := reverse (trimStart (reverse s)).

(** [text.trim()]. *)
Definition trim (s : jsstring) : jsstring := trimEnd (trimStart s).

(** [replace(/\s+/g, ' ')], left to right; [in_run] holds while the scan is
    inside a match of [\s+], whose replacement has been written already. *)
Fixpoint replace_runs (in_run : bool) (s : jsstring) : jsstring :=
  match s with
  | [] => []
  | c :: s' =>
      if is_space c
      then (if in_run then replace_runs true s' else space :: replace_runs true s')
      else c :: replace_runs false s'
  end.

Definition normalize (text : jsstring) : jsstring := replace_runs false (trim text).

(** The reading of [normalize] by words: the maximal runs of non-whitespace,
    joined by single spaces. [cur] is the run being read, reversed. *)
Fixpoint words_from (cur : jsstring) (s : jsstring) : list jsstring :=
  match s with
  | [] => match cur with [] => [] | _ => [reverse cur] end
  | c :: s' =>
      if is_space c
      then match cur with [] => words_from [] s' | _ => reverse cur :: words_from [] s' end
      else words_from (c :: cur) s'
  end.

Definition words (s : jsstring) : list jsstring := words_from [] s.

Fixpoint unwords (ws : list jsstring) : jsstring :=
  match ws with
  | [] => []
  | [w] => w
  | w :: ws' => w ++ space :: unwords ws'
  end.

(** ** handler *)

(** What a call into the runtime or the provider yields. *)
Inductive result (T : Type) :=
  | Ok (x : T)
  | Throw (message : string).
Arguments Ok {T} x.
Arguments Throw {T} message.

Inductive http_method := OPTIONS | POST | OtherMethod.

Definition cors_headers : list (string * string) :=
  [("Access-Control-Allow-Credentials", "true");
   ("Access-Control-Allow-Origin", "*");
   ("Access-Control-Allow-Methods", "GET,POST,OPTIONS");
   ("Access-Control-Allow-Headers", "Content-Type")]%string.

Section Handler.
Context (A : JSNumber).
Local Open Scope num_scope.
Local Abbreviation Number := (of_nat A).

(** A field of the JSON body. *)
Inductive js_value :=
  | VUndefined
  | VNull
  | VBool (b : bool)
  | VNumber (x : num A)
  | VString (s : jsstring)
  | VObject.

(** [!v] is [negb (truthy v)]. *)
Definition truthy (v : js_value) : bool :=
  match v with
  | VUndefined | VNull => false
  | VBool b => b
  | VNumber x => negb (num_falsy A x)
  | VString s => negb (length s =? 0)%nat
  | VObject => true
  end.

(** [req.body] destructured; [threshold] is a number when it is present. *)
Record body := {
  userAnswer : js_value;
  correctAnswer : js_value;
  threshold : option (num A)
}.

Record request := {
  method : http_method;
  req_body : option body
}.

Record scores := {
  sc_exact : option (num A);
  sc_semantic : num A;
  sc_jaroWinkler : num A;
  sc_combined : num A
}.

(** The JSON of a 200 answer; [d_threshold = None]: the object has no
    [threshold] property. *)
Record decision := {
  d_isCorrect : bool;
  d_confidence : num A;
  d_scores : scores;
  d_threshold : option (num A)
}.

Inductive payload :=
  | NoContent
  | ErrorBody (error : string) (message : option string)
  | DecisionBody (d : decision).

Record response := {
  status : nat;
  headers : list (string * string);
  content : payload
}.

Definition respond (code : nat) (p : payload) : response :=
  {| status := code; headers := cors_headers; content := p |}.

(** The embedding provider: [pipeline] (given the number of earlier loads),
    the call of the extractor on the pair, and [cos_sim]; and the
    runtime's [toLowerCase]. *)
Context (Extractor Tensor : Type).
Context (pipeline : nat -> result Extractor).
Context (run_model : Extractor -> jsstring -> jsstring -> result (Tensor * Tensor)).
Context (cos_sim : Tensor -> Tensor -> num A).
Context (toLowerCase : jsstring -> jsstring).

(** The module-level [extractor] cache and the traffic with the provider. *)
Record world := {
  extractor : option Extractor;
  pipeline_loads : nat;
  provider_calls : list (jsstring * jsstring)
}.

(** A computation of the [try] block: it may not return ([None]), throw,
    or yield a value, and it updates the world. *)
Definition M (T : Type) : Type := world -> option (result T * world).

#[local] Instance M_ret : MRet M := fun T x w => Some (Ok x, w).
#[local] Instance M_bind : MBind M := fun T U f c w =>
  match c w with
  | None => None
  | Some (Throw msg, w') => Some (Throw msg, w')
  | Some (Ok x, w') => f x w'
  end.

Definition lift {T} (r : result T) : M T := fun w => Some (r, w).
Definition returning {T} (o : option T) : M T := fun w => (fun x => (Ok x, w)) <$> o.

Definition getExtractor : M Extractor := fun w =>
  match extractor w with
  | Some e => Some (Ok e, w)
  | None =>
      let w' := {| extractor := extractor w;
                   pipeline_loads := S (pipeline_loads w);
                   provider_calls := provider_calls w |} in
      match pipeline (pipeline_loads w) with
      | Ok e => Some (Ok e, {| extractor := Some e;
                               pipeline_loads := pipeline_loads w';
                               provider_calls := provider_calls w' |})
      | Throw msg => Some (Throw msg, w')
      end
  end.

Definition call_model (model : Extractor) (a b : jsstring) : M (Tensor * Tensor) := fun w =>
  Some (run_model model a b,
        {| extractor := extractor w;
           pipeline_loads := pipeline_loads w;
           provider_calls := provider_calls w ++ [(a, b)] |}).

(** [normalize(v)]: only a string has [trim]. *)
Definition normalize_value (v : js_value) : result jsstring :=
  match v with
  | VString s => Ok (normalize s)
  | _ => Throw "text.trim is not a function"
  end.

Definition exact_match : decision :=
  {| d_isCorrect := true;
     d_confidence := Number 1;
     d_scores := {| sc_exact := Some (Number 1); sc_semantic := Number 1;
                    sc_jaroWinkler := Number 1; sc_combined := Number 1 |};
     d_threshold := None |}.

(** The [try] block after the destructuring of [req.body]. *)
Definition score (b : body) : M response :=
  if negb (truthy (userAnswer b)) || negb (truthy (correctAnswer b))
  then mret (respond 400 (ErrorBody "Both userAnswer and correctAnswer are required" None))
  else
    normalizedUser ← lift (normalize_value (userAnswer b));
    normalizedCorrect ← lift (normalize_value (correctAnswer b));
    if bool_decide (toLowerCase normalizedUser = toLowerCase normalizedCorrect)
    then mret (respond 200 (DecisionBody exact_match))
    else
      model ← getExtractor;
      output ← call_model model normalizedUser normalizedCorrect;
      let semanticScore := cos_sim output.1 output.2 in
      jaroScore ← returning (jaroWinkler A (toLowerCase normalizedUser)
                                           (toLowerCase normalizedCorrect));
      let combinedScore := semanticScore * lit_0_8 A + jaroScore * lit_0_2 A in
      let threshold := default (lit_0_75 A) (threshold b) in
      let isCorrect := combinedScore >=? threshold in
      mret (respond 200 (DecisionBody
        {| d_isCorrect := isCorrect;
           d_confidence := combinedScore;
           d_scores := {| sc_exact := None; sc_semantic := semanticScore;
                          sc_jaroWinkler := jaroScore; sc_combined := combinedScore |};
           d_threshold := Some threshold |})).

Definition destructure_error : string :=
  "Cannot destructure property 'userAnswer' of 'req.body' as it is undefined.".

Definition handler (req : request) : world -> option (response * world) := fun w =>
  match method req with
  | OPTIONS => Some (respond 200 NoContent, w)
  | OtherMethod => Some (respond 405 (ErrorBody "Method not allowed" None), w)
  | POST =>
      let attempt :=
        match req_body req with
        | None => lift (Throw destructure_error)
        | Some b => score b
        end in
      match attempt w with
      | None => None
      | Some (Ok r, w') => Some (r, w')
      | Some (Throw msg, w') =>
          Some (respond 500 (ErrorBody "Internal server error" (Some msg)), w')
      end
  end.
End Handler.

Arguments VUndefined {A}.
Arguments VNull {A}.
Arguments VBool {A} b.
Arguments VNumber {A} x.
Arguments VString {A} s.
Arguments VObject {A}.
Arguments NoContent {A}.
Arguments ErrorBody {A} error message.
Arguments DecisionBody {A} d.

(** [toLowerCase] on strings of ASCII code units. *)
Definition ascii_lower (s : jsstring) : jsstring :=
  map (λ c, if (65 <=? c)%N && (c <=? 90)%N then (c + 32)%N else c) s.

(** ** Notions used to state and prove the properties *)

(** The number of set flags. *)
Definition popcount (l : list bool) : nat := length (filter (λ b, b = true) l).

(** [j] lies within [w] of [i]. *)
Definition in_window (w : Z) (i j : nat) : Prop :=
  (Z.of_nat i - w ≤ Z.of_nat j ≤ Z.of_nat i + w)%Z.

(** The position of [s2] that iteration [i] of the matching loop claims. *)
Definition partner (s1 s2 : jsstring) (i : nat) : option nat :=
  let w := matchWindow (length s1) (length s2) in
  let start := scan_start i w in
  let end_ := scan_end i w (length s2) in
  scan s2 (s2Matches (match_loop s1 s2 i)) (s1 !! i)
       (Z.to_nat start) (Z.to_nat (end_ - start)%Z).

(** The matchings that first-fit produces, described without reference to
    the order in which the two strings are walked. *)
Record canonical (s1 s2 : jsstring) (w : Z) (M : nat → nat → Prop) : Prop := {
  can_valid i j : M i j → is_Some (s1 !! i) ∧ s1 !! i = s2 !! j ∧ in_window w i j;
  can_fun i j j' : M i j → M i j' → j = j';
  can_inj i i' j : M i j → M i' j → i = i';
  can_mono i i' j j' : M i j → M i' j' → s1 !! i = s1 !! i' → i < i' → j < j';
  can_max i j :
    is_Some (s1 !! i) → s1 !! i = s2 !! j → in_window w i j →
    (∃ j', M i j') ∨ (∃ i', M i' j);
  can_left1 i j j' :
    M i j → j' < j → s2 !! j' = s1 !! i → in_window w i j' → ∃ i', M i' j';
  can_left2 i i' j :
    M i j → i' < i → s1 !! i' = s2 !! j → in_window w i' j → ∃ j', M i' j'
}.

(** The code units at the set positions, in order. *)
Fixpoint picked (s : jsstring) (F : list bool) : jsstring :=
  match s, F with
  | c :: s', b :: F' => if b then c :: picked s' F' else picked s' F'
  | _, _ => []
  end.

(** The number of places at which two sequences, read in step, differ. *)
Fixpoint mismatches (l1 l2 : jsstring) : nat :=
  match l1, l2 with
  | a :: l1', b :: l2' => (if bool_decide (a = b) then 0 else 1) + mismatches l1' l2'
  | _, _ => 0
  end.

(** A string that does not begin, or end, with whitespace. *)
Definition starts_clean (t : jsstring) : Prop :=
  match t with
  | c :: _ => is_space c = false
  | [] => True
  end.

Definition ends_clean (t : jsstring) : Prop :=
  ∀ pre c, t = pre ++ [c] → is_space c = false.

Abbreviation blank := (Forall (λ c : code_unit, is_space c = true)).
Abbreviation solid := (Forall (λ c : code_unit, is_space c = false)).

(** A provider for the examples: the model loads, and every pair of texts
    has the semantic similarity [sem]. *)
Definition stub_pipeline : nat → result unit := λ _, Ok tt.
Definition stub_model : unit → jsstring → jsstring → result (unit * unit) :=
  λ _ _ _, Ok (tt, tt).
Definition stub_cos_sim {A : JSNumber} (sem : num A) : unit → unit → num A := λ _ _, sem.

Definition cold_start : world unit :=
  {| extractor := None; pipeline_loads := 0; provider_calls := [] |}.

(** The engine on binary64 numbers with the stub provider. *)
Definition stub_handler (sem : num binary64) :
    request binary64 → world unit → option (response binary64 * world unit) :=
  handler binary64 unit unit stub_pipeline stub_model (stub_cos_sim sem) ascii_lower.

Definition post_answers (userAnswer correctAnswer : string)
    (threshold : option (num binary64)) :
    request binary64 :=
  {| method := POST;
     req_body := Some {| userAnswer := VString (js userAnswer);
                         correctAnswer := VString (js correctAnswer);
                         threshold := threshold |} |}.

(** The decision that the stub engine reaches for ["ab"] against ["cd"] with
    semantic similarity 1 and threshold 0.8. *)
Definition sample_scores : scores binary64 :=
  Build_scores binary64 None 1%float 0%float (lit_0_8 binary64).

Definition sample_decision : decision binary64 :=
  Build_decision binary64 true (lit_0_8 binary64) sample_scores (Some (lit_0_8 binary64)).

Definition sample_world : world unit :=
  {| extractor := Some tt; pipeline_loads := 1;
     provider_calls := [(js "ab", js "cd")] |}.



(** A string of [m] code units against itself, on binary64: the closing
    formulas on the counters of that case ([m] matches, no transposition,
    the prefix capped at 4) give 1.0, for [m] from 2 to [N + 1]. *)
Definition self_score_ok (m : nat) : bool :=
  PrimFloat.eqb (winkler binary64 (jaro_score binary64 m m m 0) (Nat.min m 4)) 1.

Definition self_scores_ok_upto (N : nat) : bool := forallb self_score_ok (seq 2 N).

(** ** server.js *)

(** The Express variant: the health route [GET /], the route
    [POST /api/compare] on the body that [express.json()] parsed, and the
    callback of [app.listen], which loads the model ahead of the first
    request. It shares the provider, the [extractor] cache and the world of
    the serverless handler. *)
Section Server.
Context (A : JSNumber).
Local Open Scope num_scope.
Context (Extractor Tensor : Type).
Context (pipeline : nat -> result Extractor).
Context (run_model : Extractor -> jsstring -> jsstring -> result (Tensor * Tensor)).
Context (cos_sim : Tensor -> Tensor -> num A).
Context (toLowerCase : jsstring -> jsstring).
#[local] Existing Instance M_ret.
#[local] Existing Instance M_bind.

Inductive server_json :=
| HealthJson (status message : string) (modelLoaded : bool)
| ApiJson (p : payload A).

(** [res.json(...)] answers 200 unless [res.status(...)] came first. *)
Record reply := {
code : nat;
json : server_json
}.

(** [app.get('/', ...)]: [modelLoaded] is [extractor !== null]. *)
Definition health (w : world Extractor) : reply :=
{| code := 200;
   json := HealthJson "ok" "Answer Comparison API"
             (match extractor Extractor w with Some _ => true | None => false end) |}.

(** [app.post('/api/compare', ...)]. *)
Definition compare_route (b : body A) : world Extractor -> option (reply * world Extractor) :=
fun w =>
let attempt : M Extractor reply :=
  if negb (truthy A (userAnswer A b)) || negb (truthy A (correctAnswer A b))
  then mret {| code := 400;
               json := ApiJson (ErrorBody "Both userAnswer and correctAnswer are required"
                                          None) |}
  else
    normalizedUser ← lift Extractor (normalize_value A (userAnswer A b));
    normalizedCorrect ← lift Extractor (normalize_value A (correctAnswer A b));
    if bool_decide (toLowerCase normalizedUser = toLowerCase normalizedCorrect)
    then mret {| code := 200; json := ApiJson (DecisionBody (exact_match A)) |}
    else
      model ← getExtractor Extractor pipeline;
      output ← call_model Extractor Tensor run_model model normalizedUser normalizedCorrect;
      let semanticScore := cos_sim output.1 output.2 in
      jaroScore ← returning Extractor (jaroWinkler A (toLowerCase normalizedUser)
                                                     (toLowerCase normalizedCorrect));
      let combinedScore := semanticScore * lit_0_8 A + jaroScore * lit_0_2 A in
      let threshold := default (lit_0_75 A) (threshold A b) in
      let isCorrect := combinedScore >=? threshold in
      mret {| code := 200;
              json := ApiJson (DecisionBody
                {| d_isCorrect := isCorrect;
                   d_confidence := combinedScore;
                   d_scores := {| sc_exact := None; sc_semantic := semanticScore;
                                  sc_jaroWinkler := jaroScore;
                                  sc_combined := combinedScore |};
                   d_threshold := Some threshold |}) |} in
match attempt w with
| None => None
| Some (Ok r, w') => Some (r, w')
| Some (Throw msg, w') =>
    Some ({| code := 500;
             json := ApiJson (ErrorBody "Internal server error" (Some msg)) |}, w')
end.

(** The callback of [app.listen]: [await getExtractor()]; the world it
  leaves, whether the load succeeds or throws. *)
Definition listen (w : world Extractor) : world Extractor :=
match getExtractor Extractor pipeline w with
| Some (_, w') => w'
| None => w
end.

End Server.

Arguments HealthJson {A} status message modelLoaded.
Arguments ApiJson {A} p.

(** ** The outcomes of a request *)

Section Outcomes.
Context (A : JSNumber) (Extractor Tensor : Type).
Context (pipeline : nat -> result Extractor).
Context (run_model : Extractor -> jsstring -> jsstring -> result (Tensor * Tensor)).
Context (cos_sim : Tensor -> Tensor -> num A).
Context (toLowerCase : jsstring -> jsstring).
Local Open Scope num_scope.

(** The world after a call of the model on a pair. *)
Definition logged (w : world Extractor) (a b : jsstring) : world Extractor :=
{| extractor := extractor Extractor w;
   pipeline_loads := pipeline_loads Extractor w;
   provider_calls := provider_calls Extractor w ++ [(a, b)] |}.

(** The decision of the combined-scoring path. *)
Definition scored (semanticScore jaroScore threshold : num A) : decision A :=
let combinedScore := semanticScore * lit_0_8 A + jaroScore * lit_0_2 A in
{| d_isCorrect := combinedScore >=? threshold;
   d_confidence := combinedScore;
   d_scores := {| sc_exact := None; sc_semantic := semanticScore;
                  sc_jaroWinkler := jaroScore; sc_combined := combinedScore |};
   d_threshold := Some threshold |}.

Definition internal_error (msg : string) : response A :=
respond A 500 (ErrorBody "Internal server error" (Some msg)).

(** The nine ways in which [handler] answers a request from a world. *)
Inductive outcome (req : request A) (w : world Extractor) :
  response A -> world Extractor -> Prop :=
| out_preflight :
    method A req = OPTIONS -> outcome req w (respond A 200 NoContent) w
| out_method :
    method A req = OtherMethod ->
    outcome req w (respond A 405 (ErrorBody "Method not allowed" None)) w
| out_no_body :
    method A req = POST -> req_body A req = None ->
    outcome req w (internal_error destructure_error) w
| out_missing b :
    method A req = POST -> req_body A req = Some b ->
    truthy A (userAnswer A b) = false \/ truthy A (correctAnswer A b) = false ->
    outcome req w
      (respond A 400 (ErrorBody "Both userAnswer and correctAnswer are required" None)) w
| out_not_string b :
    method A req = POST -> req_body A req = Some b ->
    truthy A (userAnswer A b) = true -> truthy A (correctAnswer A b) = true ->
    (forall s, userAnswer A b <> VString s) \/ (forall s, correctAnswer A b <> VString s) ->
    outcome req w (internal_error "text.trim is not a function") w
| out_exact b u c :
    method A req = POST -> req_body A req = Some b ->
    userAnswer A b = VString u -> correctAnswer A b = VString c ->
    u <> [] -> c <> [] ->
    toLowerCase (normalize u) = toLowerCase (normalize c) ->
    outcome req w (respond A 200 (DecisionBody (exact_match A))) w
| out_load_failed b u c msg w1 :
    method A req = POST -> req_body A req = Some b ->
    userAnswer A b = VString u -> correctAnswer A b = VString c ->
    u <> [] -> c <> [] ->
    toLowerCase (normalize u) <> toLowerCase (normalize c) ->
    getExtractor Extractor pipeline w = Some (Throw msg, w1) ->
    outcome req w (internal_error msg) w1
| out_model_failed b u c e w1 msg :
    method A req = POST -> req_body A req = Some b ->
    userAnswer A b = VString u -> correctAnswer A b = VString c ->
    u <> [] -> c <> [] ->
    toLowerCase (normalize u) <> toLowerCase (normalize c) ->
    getExtractor Extractor pipeline w = Some (Ok e, w1) ->
    run_model e (normalize u) (normalize c) = Throw msg ->
    outcome req w (internal_error msg) (logged w1 (normalize u) (normalize c))
| out_scored b u c e w1 out jaroScore :
    method A req = POST -> req_body A req = Some b ->
    userAnswer A b = VString u -> correctAnswer A b = VString c ->
    u <> [] -> c <> [] ->
    toLowerCase (normalize u) <> toLowerCase (normalize c) ->
    getExtractor Extractor pipeline w = Some (Ok e, w1) ->
    run_model e (normalize u) (normalize c) = Ok out ->
    jaroWinkler A (toLowerCase (normalize u)) (toLowerCase (normalize c)) = Some jaroScore ->
    outcome req w
      (respond A 200 (DecisionBody
         (scored (cos_sim out.1 out.2) jaroScore (default (lit_0_75 A) (threshold A b)))))
      (logged w1 (normalize u) (normalize c)).
End Outcomes.

(** Providers that fail, for the examples: the model does not load, or
    loads and throws when called. *)
Definition failing_pipeline : nat → result unit := λ _, Throw "model not ready".
Definition failing_model : unit → jsstring → jsstring → result (unit * unit) :=
  λ _ _ _, Throw "inference failed".

Definition warm : world unit :=
  {| extractor := Some tt; pipeline_loads := 1; provider_calls := [] |}.

(** * Properties *)

(** ** Flag arrays *)

Lemma flag_true (l : list bool) k : flag l k = true ↔ l !! k = Some true.
Proof.
  unfold flag. destruct (l !! k) as [[]|]; simpl; split; congruence.
Qed.

Lemma flag_false_lookup (l : list bool) k :
  k < length l → flag l k = false → l !! k = Some false.
Proof.
  intros Hk. unfold flag. destruct (lookup_lt_is_Some_2 l k Hk) as [b Hb].
  rewrite Hb. simpl. congruence.
Qed.

Lemma popcount_app l1 l2 : popcount (l1 ++ l2) = popcount l1 + popcount l2.
Proof. unfold popcount. by rewrite filter_app, length_app. Qed.

Lemma popcount_le l : popcount l ≤ length l.
Proof. apply length_filter. Qed.

Lemma popcount_cons b l : popcount (b :: l) = (if b then 1 else 0) + popcount l.
Proof.
  unfold popcount. destruct b.
  - by rewrite filter_cons_True.
  - by rewrite filter_cons_False.
Qed.

Lemma popcount_replicate_false n : popcount (replicate n false) = 0.
Proof. induction n as [|n IH]; [done|]. cbn [replicate]. by rewrite popcount_cons. Qed.

Lemma popcount_set (l : list bool) j :
  l !! j = Some false → popcount (<[j:=true]> l) = S (popcount l).
Proof.
  revert j. induction l as [|b l IH]; intros j Hj; [done|].
  destruct j as [|j]; simpl in Hj.
  - injection Hj as ->. change (<[0:=true]> (false :: l)) with (true :: l).
    by rewrite !popcount_cons.
  - change (<[S j:=true]> (b :: l)) with (b :: <[j:=true]> l).
    rewrite !popcount_cons, (IH j Hj). lia.
Qed.

Lemma popcount_pos (l : list bool) k : l !! k = Some true → 0 < popcount l.
Proof.
  revert k. induction l as [|b l IH]; intros k Hk; [done|].
  rewrite popcount_cons. destruct k as [|k]; simpl in Hk.
  - injection Hk as ->. lia.
  - specialize (IH k Hk). lia.
Qed.

(** ** The matching pass *)

Lemma scan_Some s2 F c j cnt j' :
  scan s2 F c j cnt = Some j' →
  j ≤ j' < j + cnt ∧ flag F j' = false ∧ s2 !! j' = c ∧
  ∀ j'', j ≤ j'' < j' → flag F j'' = true ∨ s2 !! j'' ≠ c.
Proof.
  revert j. induction cnt as [|cnt IH]; intros j; simpl; [done|].
  destruct (flag F j || differ c (s2 !! j)) eqn:Hb.
  - intros H. destruct (IH _ H) as (Hr & Hf & Hc & Hbefore).
    split; [lia|]. do 2 (split; [done|]).
    intros j'' Hj''. destruct (decide (j'' = j)) as [->|Hne].
    + apply orb_true_iff in Hb as [Hb|Hb]; [by left|right].
      unfold differ in Hb. apply negb_true_iff, bool_decide_eq_false in Hb. congruence.
    + apply Hbefore. lia.
  - intros [= <-]. apply orb_false_iff in Hb as [Hf Hd].
    unfold differ in Hd. apply negb_false_iff, bool_decide_eq_true in Hd.
    split; [lia|]. do 2 (split; [done|]). intros j'' ?. lia.
Qed.

Lemma scan_None s2 F c j cnt :
  scan s2 F c j cnt = None →
  ∀ j'', j ≤ j'' < j + cnt → flag F j'' = true ∨ s2 !! j'' ≠ c.
Proof.
  revert j. induction cnt as [|cnt IH]; intros j; simpl; [intros _ j'' ?; lia|].
  destruct (flag F j || differ c (s2 !! j)) eqn:Hb; [|done].
  intros H j'' Hj''. destruct (decide (j'' = j)) as [->|Hne].
  - apply orb_true_iff in Hb as [Hb|Hb]; [by left|right].
    unfold differ in Hb. apply negb_true_iff, bool_decide_eq_false in Hb. congruence.
  - apply (IH _ H). lia.
Qed.

Lemma in_window_sym w i j : in_window w i j ↔ in_window w j i.
Proof. unfold in_window. lia. Qed.

Lemma matchWindow_comm m n : matchWindow m n = matchWindow n m.
Proof. unfold matchWindow. by rewrite Z.max_comm. Qed.

Lemma scan_range i w n j :
  Z.to_nat (scan_start i w) ≤ j
    < Z.to_nat (scan_start i w) + Z.to_nat (scan_end i w n - scan_start i w)%Z
  ↔ j < n ∧ in_window w i j.
Proof. unfold scan_start, scan_end, in_window. lia. Qed.

Lemma match_loop_S s1 s2 i :
  match_loop s1 s2 (S i) =
  match partner s1 s2 i with
  | Some j =>
      {| s1Matches := <[i:=true]> (s1Matches (match_loop s1 s2 i));
         s2Matches := <[j:=true]> (s2Matches (match_loop s1 s2 i));
         matches := S (matches (match_loop s1 s2 i)) |}
  | None => match_loop s1 s2 i
  end.
Proof.
  unfold match_loop at 1. rewrite seq_S, foldl_app. reflexivity.
Qed.

Section Matching.
Context (s1 s2 : jsstring).
Local Abbreviation w := (matchWindow (length s1) (length s2)).
Local Abbreviation claimed i := (s2Matches (match_loop s1 s2 i)).

Lemma partner_Some i j :
  partner s1 s2 i = Some j →
  j < length s2 ∧ in_window w i j ∧ s2 !! j = s1 !! i ∧ flag (claimed i) j = false ∧
  ∀ j', j' < j → in_window w i j' → flag (claimed i) j' = true ∨ s2 !! j' ≠ s1 !! i.
Proof.
  unfold partner. intros H. apply scan_Some in H as (Hr & Hf & Hc & Hbefore).
  assert (j < length s2 ∧ in_window w i j) as [Hj Hw].
  { apply scan_range. exact Hr. }
  do 4 (split; [done|]). intros j' Hlt Hw'. apply Hbefore.
  assert (j' < length s2) as Hj' by lia.
  destruct (proj2 (scan_range i w (length s2) j') (conj Hj' Hw')) as [Hlo _].
  split; [exact Hlo|exact Hlt].
Qed.

Lemma partner_None i j :
  partner s1 s2 i = None → j < length s2 → in_window w i j →
  flag (claimed i) j = true ∨ s2 !! j ≠ s1 !! i.
Proof.
  unfold partner. intros H Hj Hw. eapply scan_None; [exact H|].
  by apply scan_range.
Qed.

Lemma partner_lt i j : partner s1 s2 i = Some j → i < length s1.
Proof.
  intros H. apply partner_Some in H as (Hj & _ & Hc & _).
  apply lookup_lt_is_Some. rewrite <- Hc. by apply lookup_lt_is_Some.
Qed.

(** The state of the matching loop after [i] iterations. *)
Lemma match_loop_inv i :
  length (s1Matches (match_loop s1 s2 i)) = length s1 ∧
  length (claimed i) = length s2 ∧
  (∀ i', s1Matches (match_loop s1 s2 i) !! i' = Some true
         ↔ i' < i ∧ is_Some (partner s1 s2 i')) ∧
  (∀ j, claimed i !! j = Some true ↔ ∃ i', i' < i ∧ partner s1 s2 i' = Some j) ∧
  matches (match_loop s1 s2 i) = popcount (s1Matches (match_loop s1 s2 i)) ∧
  matches (match_loop s1 s2 i) = popcount (claimed i).
Proof.
  induction i as [|i (IH1 & IH2 & IH3 & IH4 & IH5 & IH6)].
  - unfold match_loop, match_init. simpl.
    rewrite !length_replicate, !popcount_replicate_false.
    do 2 (split; [done|]). split; [|split; [|done]].
    + intros i'. split; [|lia]. by intros [? _]%lookup_replicate.
    + intros j. split; [|intros (? & ? & _); lia]. by intros [? _]%lookup_replicate.
  - rewrite match_loop_S. destruct (partner s1 s2 i) as [j|] eqn:Hp; simpl.
    + pose proof (partner_lt _ _ Hp) as Hi.
      destruct (partner_Some _ _ Hp) as (Hj & _ & _ & Hf & _).
      rewrite !length_insert. do 2 (split; [done|]).
      assert (s1Matches (match_loop s1 s2 i) !! i = Some false) as Hi0.
      { destruct (lookup_lt_is_Some_2 (s1Matches (match_loop s1 s2 i)) i) as [[] Hb];
          [lia| |done].
        apply IH3 in Hb. lia. }
      assert (claimed i !! j = Some false) as Hj0.
      { apply flag_false_lookup; [lia|done]. }
      split; [|split; [|split]].
      * intros i'. destruct (decide (i' = i)) as [->|Hne].
        -- rewrite list_lookup_insert_eq by lia. rewrite Hp. split; [|done].
           intros _. split; [lia|by eexists].
        -- rewrite list_lookup_insert_ne by done. rewrite IH3.
           split; intros [? ?]; split; try done; lia.
      * intros j'. destruct (decide (j' = j)) as [->|Hne].
        -- rewrite list_lookup_insert_eq by lia. split; [|done].
           intros _. exists i. split; [lia|done].
        -- rewrite list_lookup_insert_ne by done. rewrite IH4. split.
           ++ intros (i' & ? & ?). exists i'. split; [lia|done].
           ++ intros (i' & Hlt & Hi'). destruct (decide (i' = i)) as [->|].
              ** congruence.
              ** exists i'. split; [lia|done].
      * rewrite popcount_set by done. by rewrite IH5.
      * rewrite popcount_set by done. by rewrite IH6.
    + do 2 (split; [done|]). split; [|split; [|done]].
      * intros i'. rewrite IH3. split; intros [Hlt Hs]; split; try done; try lia.
        destruct (decide (i' = i)) as [->|]; [|lia].
        rewrite Hp in Hs. by destruct Hs.
      * intros j. rewrite IH4. split; intros (i' & Hlt & Hi'); exists i'.
        -- split; [lia|done].
        -- split; [|done]. destruct (decide (i' = i)) as [->|]; [congruence|lia].
Qed.

Lemma claimed_iff i j :
  flag (claimed i) j = true ↔ ∃ i', i' < i ∧ partner s1 s2 i' = Some j.
Proof.
  rewrite flag_true. apply (match_loop_inv i).
Qed.

Lemma partner_inj i i' j :
  partner s1 s2 i = Some j → partner s1 s2 i' = Some j → i = i'.
Proof.
  assert (∀ a b, a < b → partner s1 s2 a = Some j → partner s1 s2 b = Some j → False)
    as Hlt.
  { intros a b Hab Ha Hb. apply partner_Some in Hb as (_ & _ & _ & Hf & _).
    assert (flag (claimed b) j = true) by (apply claimed_iff; eauto).
    congruence. }
  intros Hi Hi'. destruct (lt_eq_lt_dec i i') as [[?|?]|?]; [|done|]; exfalso; eauto.
Qed.

Lemma partner_mono i i' j j' :
  partner s1 s2 i = Some j → partner s1 s2 i' = Some j' →
  s1 !! i = s1 !! i' → i < i' → j < j'.
Proof.
  intros Hi Hi' Hc Hlt.
  destruct (partner_Some _ _ Hi) as (_ & Hw & _ & _ & Hmin).
  destruct (partner_Some _ _ Hi') as (_ & Hw' & Hc' & _ & _).
  destruct (lt_eq_lt_dec j j') as [[?| ->]|Hgt]; [done| |].
  - pose proof (partner_inj _ _ _ Hi Hi'). lia.
  - exfalso. destruct (Hmin j' Hgt) as [Hf|Hd].
    + unfold in_window in *. lia.
    + apply claimed_iff in Hf as (i0 & Hi0 & Hp0).
      pose proof (partner_inj _ _ _ Hp0 Hi'). lia.
    + congruence.
Qed.

Lemma partner_canonical : canonical s1 s2 w (λ i j, partner s1 s2 i = Some j).
Proof.
  split.
  - intros i j H. destruct (partner_Some _ _ H) as (Hj & Hw & Hc & _).
    split; [|done]. apply lookup_lt_is_Some. by eapply partner_lt.
  - congruence.
  - apply partner_inj.
  - apply partner_mono.
  - intros i j Hs Hc Hw. destruct (partner s1 s2 i) as [j'|] eqn:Hp; [left; eauto|].
    right. assert (j < length s2) as Hj.
    { apply lookup_lt_is_Some. by rewrite <- Hc. }
    destruct (partner_None _ _ Hp Hj Hw) as [Hf|Hd]; [|done].
    apply claimed_iff in Hf as (i' & _ & Hi'). eauto.
  - intros i j j' H Hlt Hc Hw.
    destruct (partner_Some _ _ H) as (_ & _ & _ & _ & Hmin).
    destruct (Hmin j' Hlt Hw) as [Hf|Hd]; [|done].
    apply claimed_iff in Hf as (i' & _ & Hi'). eauto.
  - intros i i' j H Hlt Hc Hw.
    destruct (partner s1 s2 i') as [j'|] eqn:Hp; [eauto|]. exfalso.
    destruct (partner_Some _ _ H) as (Hj & _).
    destruct (partner_None _ _ Hp Hj Hw) as [Hf|Hd]; [|done].
    apply claimed_iff in Hf as (i0 & Hi0 & Hp0).
    pose proof (partner_inj _ _ _ Hp0 H). lia.
Qed.
End Matching.

(** The description is the same read from either string... *)
Lemma canonical_flip s1 s2 w M : canonical s1 s2 w M → canonical s2 s1 w (flip M).
Proof.
  intros [Hv Hf Hi Hm Hx Hl1 Hl2]. unfold flip. split.
  - intros i j H. destruct (Hv _ _ H) as (Hs & Hc & Hw).
    split; [by rewrite <- Hc|]. split; [done|]. by apply in_window_sym.
  - intros i j j' ??. eauto.
  - intros i i' j ??. eauto.
  - intros i i' j j' H H' Hc Hlt.
    destruct (Hv _ _ H) as (_ & Hc1 & _). destruct (Hv _ _ H') as (_ & Hc2 & _).
    destruct (lt_eq_lt_dec j j') as [[?| ->]|Hgt]; [done| |].
    + pose proof (Hf _ _ _ H H'). lia.
    + assert (i' < i); [|lia]. eapply (Hm j' j); [done..| |done]. congruence.
  - intros i j Hs Hc Hw.
    assert ((∃ j', M j j') ∨ (∃ i', M i' i)) as [?|?]; [|by right|by left].
    apply Hx; [by rewrite <- Hc|done|by apply in_window_sym].
  - intros i j j' H Hlt Hc Hw. eapply Hl2; [done..|by apply in_window_sym].
  - intros i i' j H Hlt Hc Hw. eapply Hl1; [done..|by apply in_window_sym].
Qed.

(** ... and it is met by one matching only. *)
Lemma canonical_incl s1 s2 w M M' :
  canonical s1 s2 w M → canonical s1 s2 w M' → ∀ i j, M i j → M' i j.
Proof.
  intros HM HM' i j. remember (i + j) as N eqn:HN.
  revert M M' HM HM' i j HN.
  induction (lt_wf N) as [N _ IH]. intros M M' HM HM' i j -> H.
  destruct (can_valid _ _ _ _ HM _ _ H) as (Hs & Hc & Hw).
  (* a partner of [i] in [M'] is [j] *)
  assert (∀ j', M' i j' → j' = j) as Hrow.
  { intros j' H'. destruct (lt_eq_lt_dec j' j) as [[Hlt|?]|Hgt]; [|done|]; exfalso.
    - assert (M i j') by (eapply (IH (i + j')); [lia|exact HM'|exact HM|done|done]).
      pose proof (can_fun _ _ _ _ HM _ _ _ H H0). lia.
    - destruct (can_left1 _ _ _ _ HM' _ _ _ H' Hgt) as [i' Hi']; [done..|].
      destruct (lt_eq_lt_dec i' i) as [[Hlt| ->]|Hgt'].
      + assert (M i' j) by (eapply (IH (i' + j)); [lia|exact HM'|exact HM|done|done]).
        pose proof (can_inj _ _ _ _ HM _ _ _ H H0). lia.
      + pose proof (can_fun _ _ _ _ HM' _ _ _ H' Hi'). lia.
      + destruct (can_valid _ _ _ _ HM' _ _ Hi') as (_ & Hc' & _).
        assert (j' < j); [|lia].
        eapply (can_mono _ _ _ _ HM' i i'); [done..| |done]. congruence. }
  destruct (can_max _ _ _ _ HM' i j) as [[j' H']|[i' H']]; [done..| |].
  - by rewrite <- (Hrow _ H').
  - destruct (lt_eq_lt_dec i' i) as [[Hlt| ->]|Hgt]; [|done|].
    + exfalso.
      assert (M i' j) by (eapply (IH (i' + j)); [lia|exact HM'|exact HM|done|done]).
      pose proof (can_inj _ _ _ _ HM _ _ _ H H0). lia.
    + destruct (can_left2 _ _ _ _ HM' _ _ _ H' Hgt) as [j' Hj']; [done..|].
      by rewrite <- (Hrow _ Hj').
Qed.

(** First-fit finds the same pairs from either side. *)
Lemma partner_sym s1 s2 i j : partner s1 s2 i = Some j ↔ partner s2 s1 j = Some i.
Proof.
  pose proof (partner_canonical s1 s2) as H12.
  pose proof (canonical_flip _ _ _ _ (partner_canonical s2 s1)) as H21.
  rewrite (matchWindow_comm (length s2)) in H21.
  split; intros H.
  - by apply (canonical_incl _ _ _ _ _ H12 H21).
  - by apply (canonical_incl _ _ _ _ _ H21 H12).
Qed.

(** The flag arrays of the two directions are each other's. *)
Lemma flags_ext (l1 l2 : list bool) :
  length l1 = length l2 → (∀ k, l1 !! k = Some true ↔ l2 !! k = Some true) → l1 = l2.
Proof.
  intros Hlen H. apply list_eq. intros k.
  destruct (l1 !! k) as [b1|] eqn:H1, (l2 !! k) as [b2|] eqn:H2.
  - destruct b1, b2; try done.
    + apply H in H1. congruence.
    + apply H in H2. congruence.
  - apply lookup_lt_Some in H1. apply lookup_ge_None in H2. lia.
  - apply lookup_lt_Some in H2. apply lookup_ge_None in H1. lia.
  - done.
Qed.

Lemma s1Matches_lookup s1 s2 i :
  s1Matches (matching_pass s1 s2) !! i = Some true ↔ is_Some (partner s1 s2 i).
Proof.
  unfold matching_pass.
  destruct (match_loop_inv s1 s2 (length s1)) as (_ & _ & H & _). rewrite H.
  split; [by intros [_ ?]|]. intros [j Hj]. split; [by eapply partner_lt|by eexists].
Qed.

Lemma s2Matches_lookup s1 s2 j :
  s2Matches (matching_pass s1 s2) !! j = Some true ↔ ∃ i, partner s1 s2 i = Some j.
Proof.
  unfold matching_pass.
  destruct (match_loop_inv s1 s2 (length s1)) as (_ & _ & _ & H & _). rewrite H.
  split; [intros (i & _ & ?); eauto|]. intros [i Hi]. exists i.
  split; [by eapply partner_lt|done].
Qed.

Lemma matching_pass_lengths s1 s2 :
  length (s1Matches (matching_pass s1 s2)) = length s1 ∧
  length (s2Matches (matching_pass s1 s2)) = length s2.
Proof.
  destruct (match_loop_inv s1 s2 (length s1)) as (H1 & H2 & _). done.
Qed.

Lemma matching_pass_count s1 s2 :
  matches (matching_pass s1 s2) = popcount (s1Matches (matching_pass s1 s2)) ∧
  matches (matching_pass s1 s2) = popcount (s2Matches (matching_pass s1 s2)).
Proof.
  destruct (match_loop_inv s1 s2 (length s1)) as (_ & _ & _ & _ & H1 & H2). done.
Qed.

Lemma matching_pass_swap s1 s2 :
  s1Matches (matching_pass s2 s1) = s2Matches (matching_pass s1 s2) ∧
  s2Matches (matching_pass s2 s1) = s1Matches (matching_pass s1 s2) ∧
  matches (matching_pass s2 s1) = matches (matching_pass s1 s2).
Proof.
  destruct (matching_pass_lengths s1 s2) as [L1 L2].
  destruct (matching_pass_lengths s2 s1) as [L1' L2'].
  assert (s1Matches (matching_pass s2 s1) = s2Matches (matching_pass s1 s2)) as E1.
  { apply flags_ext; [congruence|]. intros k.
    rewrite s1Matches_lookup, s2Matches_lookup. split.
    - intros [j Hj]. exists j. by apply partner_sym.
    - intros [i Hi]. exists i. by apply partner_sym. }
  assert (s2Matches (matching_pass s2 s1) = s1Matches (matching_pass s1 s2)) as E2.
  { apply flags_ext; [congruence|]. intros k.
    rewrite s1Matches_lookup, s2Matches_lookup. split.
    - intros [i Hi]. exists i. by apply partner_sym.
    - intros [j Hj]. exists j. by apply partner_sym. }
  do 2 (split; [done|]).
  rewrite (proj1 (matching_pass_count s2 s1)), (proj2 (matching_pass_count s1 s2)).
  by rewrite E1.
Qed.

(** ** The transposition pass *)

Lemma popcount_take_drop k l : popcount l = popcount (take k l) + popcount (drop k l).
Proof. by rewrite <- popcount_app, take_drop. Qed.

Lemma popcount_take_S (l : list bool) k (b : bool) :
  l !! k = Some b →
  popcount (take (S k) l) = popcount (take k l) + (if b then 1 else 0)%nat.
Proof.
  intros H. rewrite (take_S_r _ _ _ H), popcount_app, popcount_cons.
  change (popcount []) with 0. lia.
Qed.

Lemma picked_app s s' F F' :
  length s = length F → picked (s ++ s') (F ++ F') = picked s F ++ picked s' F'.
Proof.
  revert F. induction s as [|c s IH]; intros [|b F] Hlen; try done.
  simpl in *. rewrite IH by lia. by destruct b.
Qed.

Lemma picked_take_S (s : jsstring) (F : list bool) k (c : code_unit) (b : bool) :
  s !! k = Some c → F !! k = Some b →
  picked (take (S k) s) (take (S k) F)
  = picked (take k s) (take k F) ++ (if b then [c] else []).
Proof.
  intros Hs HF. rewrite (take_S_r _ _ _ Hs), (take_S_r _ _ _ HF).
  apply lookup_lt_Some in Hs, HF.
  rewrite picked_app by (rewrite !length_take; lia). by destruct b.
Qed.

Lemma picked_length s F : length s = length F → length (picked s F) = popcount F.
Proof.
  revert F. induction s as [|c s IH]; intros [|b F] Hlen; try done.
  simpl in *. rewrite popcount_cons. destruct b; simpl; rewrite IH; lia.
Qed.

Lemma picked_none s F : popcount F = 0 → picked s F = [].
Proof.
  revert F. induction s as [|c s IH]; intros [|b F]; try done.
  rewrite popcount_cons. destruct b; simpl; [lia|]. apply IH.
Qed.

Lemma mismatches_app l1 l2 l1' l2' :
  length l1 = length l2 →
  mismatches (l1 ++ l1') (l2 ++ l2') = mismatches l1 l2 + mismatches l1' l2'.
Proof.
  revert l2. induction l1 as [|a l1 IH]; intros [|b l2] Hlen; try done.
  simpl in *. rewrite IH by lia. lia.
Qed.

Lemma mismatches_sym l1 l2 : mismatches l1 l2 = mismatches l2 l1.
Proof.
  revert l2. induction l1 as [|a l1 IH]; intros [|b l2]; try done.
  simpl. rewrite IH. by repeat case_bool_decide.
Qed.

Lemma mismatches_le l1 l2 : mismatches l1 l2 ≤ length l1.
Proof.
  revert l2. induction l1 as [|a l1 IH]; intros [|b l2]; simpl; try lia.
  specialize (IH l2). case_bool_decide; lia.
Qed.

(** The [while] loop stops at the next set flag, when there is one. *)
Lemma skip_unmatched_Some rest k :
  0 < popcount rest →
  ∃ d, skip_unmatched rest k = Some (k + d) ∧ rest !! d = Some true ∧
       ∀ d', d' < d → rest !! d' = Some false.
Proof.
  revert k. induction rest as [|b rest IH]; intros k.
  { unfold popcount. simpl. lia. }
  rewrite popcount_cons. destruct b; simpl.
  - intros _. exists 0. rewrite Nat.add_0_r. split; [done|]. split; [done|]. lia.
  - intros Hp. destruct (IH (S k) Hp) as (d & Hs & Ht & Hf). exists (S d).
    rewrite Hs. split; [f_equal; lia|]. split; [done|].
    intros [|d'] ?; [done|]. apply Hf. lia.
Qed.

(** With no set flag ahead, it runs off the array. *)
Lemma skip_unmatched_None rest k : popcount rest = 0 → skip_unmatched rest k = None.
Proof.
  revert k. induction rest as [|b rest IH]; intros k; [done|].
  rewrite popcount_cons. destruct b; simpl; [lia|]. apply IH.
Qed.

Lemma trans_loop_S s1 s2 F1 F2 i :
  trans_loop s1 s2 F1 F2 (S i) = trans_step s1 s2 F1 F2 (trans_loop s1 s2 F1 F2 i) i.
Proof. unfold trans_loop. by rewrite seq_S, foldl_app. Qed.

Lemma popcount_take_false (F : list bool) k k' :
  k ≤ k' → (∀ x, k ≤ x < k' → F !! x = Some false) →
  popcount (take k' F) = popcount (take k F).
Proof.
  induction 1 as [|k' Hle IH]; intros Hf; [done|].
  rewrite (popcount_take_S F k' false) by (apply Hf; lia).
  rewrite IH by (intros; apply Hf; lia). lia.
Qed.

Lemma picked_take_false (s : jsstring) (F : list bool) k k' :
  k ≤ k' → k' ≤ length s → (∀ x, k ≤ x < k' → F !! x = Some false) →
  picked (take k' s) (take k' F) = picked (take k s) (take k F).
Proof.
  induction 1 as [|k' Hle IH]; intros Hs Hf; [done|].
  destruct (lookup_lt_is_Some_2 s k') as [c Hc]; [lia|].
  rewrite (picked_take_S s F k' c false) by (done || apply Hf; lia).
  rewrite app_nil_r. apply IH; [lia|]. intros; apply Hf; lia.
Qed.

Lemma differ_Some (a b : code_unit) :
  (if differ (Some a) (Some b) then 1 else 0) = mismatches [a] [b].
Proof.
  unfold differ. simpl. repeat case_bool_decide; simpl; congruence.
Qed.

Section Transpositions.
Context (s1 s2 : jsstring) (F1 F2 : list bool).
Context (HL1 : length F1 = length s1) (HL2 : length F2 = length s2).
Context (Hcount : popcount F1 = popcount F2).

(** At a matched position of [s1] the [while] loop finds a set flag of
    [s2Matches] inside the array, having read unset flags only. *)
Lemma trans_next i k :
  F1 !! i = Some true → popcount (take k F2) = popcount (take i F1) →
  ∃ k', skip_unmatched (drop k F2) k = Some k' ∧ k ≤ k' < length s2 ∧
        F2 !! k' = Some true ∧ ∀ x, k ≤ x < k' → F2 !! x = Some false.
Proof.
  intros Hi Hk.
  assert (0 < popcount (drop k F2)) as Hpos.
  { pose proof (popcount_take_drop k F2). pose proof (popcount_take_drop i F1).
    assert (0 < popcount (drop i F1)); [|lia].
    rewrite (drop_S _ _ _ Hi), popcount_cons. lia. }
  destruct (skip_unmatched_Some _ k Hpos) as (d & Hs & Ht & Hf).
  rewrite lookup_drop in Ht. exists (k + d). split; [done|].
  split; [apply lookup_lt_Some in Ht; lia|]. split; [done|].
  intros x Hx. specialize (Hf (x - k)). rewrite lookup_drop in Hf.
  replace (k + (x - k)) with x in Hf by lia. apply Hf. lia.
Qed.

(** The state of the transposition loop after [i] iterations. *)
Lemma trans_loop_inv i :
  i ≤ length s1 →
  ∃ k t, trans_loop s1 s2 F1 F2 i = Some (k, t) ∧ k ≤ length s2 ∧
         popcount (take k F2) = popcount (take i F1) ∧
         t = mismatches (picked (take i s1) (take i F1))
                        (picked (take k s2) (take k F2)).
Proof.
  induction i as [|i IH]; intros Hi.
  - exists 0, 0. split; [done|]. split; [lia|]. by rewrite !take_0.
  - destruct IH as (k & t & Hst & Hk & Hp & Ht); [lia|].
    rewrite trans_loop_S, Hst. simpl.
    destruct (lookup_lt_is_Some_2 s1 i) as [a Ha]; [lia|].
    destruct (lookup_lt_is_Some_2 F1 i) as [b Hb]; [lia|].
    unfold flag. rewrite Hb. destruct b; simpl.
    + destruct (trans_next i k Hb Hp) as (k' & Hs & Hr & Hk' & Hf).
      rewrite Hs. simpl.
      destruct (lookup_lt_is_Some_2 s2 k') as [c Hc]; [lia|].
      eexists _, _. split; [done|]. split; [lia|].
      assert (popcount (take k' F2) = popcount (take k F2)) as Hp'.
      { apply popcount_take_false; [lia|done]. }
      split.
      { rewrite (popcount_take_S F2 k' true), (popcount_take_S F1 i true) by done. lia. }
      rewrite (picked_take_S s1 F1 i a true), (picked_take_S s2 F2 k' c true) by done.
      rewrite (picked_take_false s2 F2 k k') by (done || lia).
      rewrite mismatches_app.
      2:{ rewrite !picked_length by (rewrite !length_take; lia). lia. }
      rewrite <- differ_Some, <- Ht, Ha, Hc. destruct (differ _ _); lia.
    + exists k, t. split; [done|]. split; [done|].
      rewrite (popcount_take_S F1 i false), (picked_take_S s1 F1 i a false) by done.
      rewrite app_nil_r. split; [lia|done].
Qed.

(** The pass returns, with the count of the places at which the matched
    code units of the two strings, read in step, differ. *)
Lemma transposition_pass_eq :
  transposition_pass s1 s2 F1 F2 = Some (mismatches (picked s1 F1) (picked s2 F2)).
Proof.
  unfold transposition_pass.
  destruct (trans_loop_inv (length s1)) as (k & t & -> & Hk & Hp & ->); [done|].
  simpl. f_equal.
  rewrite <- HL1, firstn_all, HL1, firstn_all in *.
  f_equal. rewrite <- (take_drop k s2) at 2. rewrite <- (take_drop k F2) at 2.
  rewrite picked_app by (rewrite !length_take; lia).
  rewrite (picked_none (drop k s2)), app_nil_r; [done|].
  pose proof (popcount_take_drop k F2). lia.
Qed.
End Transpositions.

(** ** jaroWinkler as a whole *)

Lemma matching_pass_transpositions s1 s2 :
  transposition_pass s1 s2 (s1Matches (matching_pass s1 s2)) (s2Matches (matching_pass s1 s2))
  = Some (mismatches (picked s1 (s1Matches (matching_pass s1 s2)))
                     (picked s2 (s2Matches (matching_pass s1 s2)))).
Proof.
  destruct (matching_pass_lengths s1 s2) as [L1 L2].
  destruct (matching_pass_count s1 s2) as [C1 C2].
  apply transposition_pass_eq; congruence.
Qed.

(** [jaroWinkler] always returns; its value in terms of the three counters. *)
Lemma jaroWinkler_eq A s1 s2 :
  jaroWinkler A s1 s2 =
  let m := length s1 in
  let n := length s2 in
  let st := matching_pass s1 s2 in
  if (m =? 0) && (n =? 0) then Some (of_nat A 1)
  else if (m =? 0) || (n =? 0) then Some (of_nat A 0)
  else if matches st =? 0 then Some (of_nat A 0)
  else Some (winkler A
         (jaro_score A m n (matches st)
            (mismatches (picked s1 (s1Matches st)) (picked s2 (s2Matches st))))
         (common_prefix s1 s2)).
Proof.
  unfold jaroWinkler. cbv zeta. by rewrite matching_pass_transpositions.
Qed.

Lemma differ_sym a b : differ a b = differ b a.
Proof. unfold differ. f_equal. apply bool_decide_ext. split; congruence. Qed.

Lemma prefix_loop_sym s1 s2 i cnt p : prefix_loop s1 s2 i cnt p = prefix_loop s2 s1 i cnt p.
Proof.
  revert i p. induction cnt as [|cnt IH]; intros i p; simpl; [done|].
  rewrite (differ_sym (s1 !! i)). by rewrite IH.
Qed.

Lemma prefix_loop_le s1 s2 i cnt p : p ≤ prefix_loop s1 s2 i cnt p ≤ p + cnt.
Proof.
  revert i p. induction cnt as [|cnt IH]; intros i p; simpl; [lia|].
  destruct (differ _ _); [lia|]. specialize (IH (S i) (S p)). lia.
Qed.

Lemma common_prefix_sym s1 s2 : common_prefix s1 s2 = common_prefix s2 s1.
Proof.
  unfold common_prefix. by rewrite prefix_loop_sym, (Nat.min_comm (length s1)).
Qed.

Lemma common_prefix_le s1 s2 : common_prefix s1 s2 ≤ 4.
Proof.
  unfold common_prefix.
  pose proof (prefix_loop_le s1 s2 0 (Nat.min (Nat.min (length s1) (length s2)) 4) 0). lia.
Qed.

(** Symmetry, for any arithmetic whose addition commutes. *)
Lemma jaroWinkler_comm A s1 s2 :
  (∀ x y, nadd A x y = nadd A y x) → jaroWinkler A s1 s2 = jaroWinkler A s2 s1.
Proof.
  intros Hadd. rewrite !jaroWinkler_eq. cbv zeta.
  destruct (matching_pass_swap s1 s2) as (E1 & E2 & E3).
  rewrite E1, E2, E3, (andb_comm (length s2 =? 0)), (orb_comm (length s2 =? 0)).
  rewrite (mismatches_sym (picked s2 _)), (common_prefix_sym s2).
  repeat case_match; try done.
  do 2 f_equal. unfold jaro_score. do 2 f_equal. apply Hadd.
Qed.

Lemma float_add_comm (x y : float) : (x + y)%float = (y + x)%float.
Proof.
  apply Prim2SF_inj. rewrite !add_spec. unfold SF64add, SFadd.
  destruct (Prim2SF x) as [| | |sx mx ex], (Prim2SF y) as [| | |sy my ey];
    try reflexivity; try (destruct s, s0; reflexivity).
  rewrite Z.min_comm. f_equal. apply Z.add_comm.
Qed.

Lemma Qplus_comm_eq (x y : Q) : (x + y)%Q = (y + x)%Q.
Proof.
  unfold Qplus. f_equal; [apply Z.add_comm|apply Pos.mul_comm].
Qed.

(** C5: the Jaro-Winkler similarity is symmetric, [jaroWinkler a b] is
    [jaroWinkler b a] for all strings [a] and [b]: first-fit claims the same
    pairs of positions whichever string is walked, so the three counters
    agree, and the result is the same number, in binary64 as in exact
    arithmetic. *)
Theorem jaroWinkler_symmetric (a b : jsstring) :
  jaroWinkler binary64 a b = jaroWinkler binary64 b a ∧
  jaroWinkler exact a b = jaroWinkler exact b a.
Proof.
  split; apply jaroWinkler_comm.
  - apply float_add_comm.
  - apply Qplus_comm_eq.
Qed.

(** C10: the matching pass sets as many flags in [s2Matches] as in
    [s1Matches]; so, whenever the transposition loop reaches a matched
    position [i] of the first string, with [k] where the earlier iterations
    left it, the [while] loop stops at a set flag [k' < n] after reading
    only slots inside the array, [s2[k']] is a code unit, and the pass
    returns. *)
Theorem transposition_index_in_bounds (s1 s2 : jsstring) :
  let st := matching_pass s1 s2 in
  popcount (s1Matches st) = popcount (s2Matches st) ∧
  (∀ i, i < length s1 →
     ∃ k t, trans_loop s1 s2 (s1Matches st) (s2Matches st) i = Some (k, t) ∧
       (flag (s1Matches st) i = true →
        ∃ k', skip_unmatched (drop k (s2Matches st)) k = Some k' ∧
              k ≤ k' < length s2 ∧
              s2Matches st !! k' = Some true ∧ is_Some (s2 !! k') ∧
              ∀ x, k ≤ x < k' → s2Matches st !! x = Some false)) ∧
  is_Some (transposition_pass s1 s2 (s1Matches st) (s2Matches st)).
Proof.
  intros st. subst st.
  destruct (matching_pass_lengths s1 s2) as [L1 L2].
  destruct (matching_pass_count s1 s2) as [C1 C2].
  assert (popcount (s1Matches (matching_pass s1 s2))
          = popcount (s2Matches (matching_pass s1 s2))) as Hc by congruence.
  split; [done|]. split.
  - intros i Hi.
    destruct (trans_loop_inv s1 s2 _ _ L1 L2 Hc i) as (k & t & Hst & Hk & Hp & _); [lia|].
    exists k, t. split; [done|]. intros Hf%flag_true.
    destruct (trans_next s1 s2 _ _ L1 L2 Hc i k Hf Hp) as (k' & Hs & Hr & Hk' & Hbefore).
    exists k'. do 3 (split; [done|]). split; [|done].
    apply lookup_lt_is_Some. lia.
  - rewrite matching_pass_transpositions. by eexists.
Qed.

(** ** The score in exact arithmetic *)


Lemma inject_nat_le (a b : nat) : a ≤ b → (inject_Z (Z.of_nat a) <= inject_Z (Z.of_nat b))%Q.
Proof. intros. rewrite <- Zle_Qle. lia. Qed.

Lemma inject_nat_pos (a : nat) : 0 < a → (0 < inject_Z (Z.of_nat a))%Q.
Proof. intros. change 0%Q with (inject_Z 0). rewrite <- Zlt_Qlt. lia. Qed.



Lemma forallb_seq (f : nat → bool) (a len x : nat) :
  forallb f (seq a len) = true → a ≤ x < a + len → f x = true.
Proof.
  intros H Hx. rewrite forallb_forall in H. apply H, in_seq. lia.
Qed.



(** What [jaroWinkler] feeds its closing formulas. *)
Lemma counters_bounds a b :
  matches (matching_pass a b) ≤ length a ∧
  matches (matching_pass a b) ≤ length b ∧
  mismatches (picked a (s1Matches (matching_pass a b)))
             (picked b (s2Matches (matching_pass a b))) ≤ matches (matching_pass a b) ∧
  common_prefix a b ≤ 4.
Proof.
  destruct (matching_pass_lengths a b) as [L1 L2].
  destruct (matching_pass_count a b) as [C1 C2].
  pose proof (popcount_le (s1Matches (matching_pass a b))).
  pose proof (popcount_le (s2Matches (matching_pass a b))).
  do 2 (split; [lia|]). split; [|apply common_prefix_le].
  etrans; [apply mismatches_le|]. rewrite picked_length by done. lia.
Qed.


(** ** A string against itself *)


Lemma matchWindow_nonneg m n : 2 ≤ m → (0 ≤ matchWindow m n)%Z.
Proof.
  intros Hm. unfold matchWindow.
  assert (1 ≤ Z.max (Z.of_nat m) (Z.of_nat n) / 2)%Z; [|lia].
  apply Z.div_le_lower_bound; lia.
Qed.

Lemma identity_canonical s w :
  (0 ≤ w)%Z → canonical s s w (λ i j, i = j ∧ i < length s).
Proof.
  intros Hw. split.
  - intros i j [-> Hj]. split; [by apply lookup_lt_is_Some|]. split; [done|].
    unfold in_window. lia.
  - intros i j j' [? _] [? _]. congruence.
  - intros i i' j [? _] [? _]. congruence.
  - intros i i' j j' [? _] [? _]. lia.
  - intros i j Hs%lookup_lt_is_Some _ _. left. by exists i.
  - intros i j j' [-> Hj] Hlt _ _. exists j'. split; [done|lia].
  - intros i i' j [-> Hj] Hlt _ _. exists i'. split; [done|lia].
Qed.

Lemma partner_self s i : 2 ≤ length s → i < length s → partner s s i = Some i.
Proof.
  intros Hs Hi.
  apply (canonical_incl s s (matchWindow (length s) (length s))
           (λ i j, i = j ∧ i < length s) (λ i j, partner s s i = Some j)).
  - apply identity_canonical. by apply matchWindow_nonneg.
  - apply partner_canonical.
  - done.
Qed.

Lemma matching_pass_self s :
  2 ≤ length s →
  s1Matches (matching_pass s s) = replicate (length s) true ∧
  s2Matches (matching_pass s s) = replicate (length s) true ∧
  matches (matching_pass s s) = length s.
Proof.
  intros Hs. destruct (matching_pass_lengths s s) as [L1 L2].
  assert (∀ k, replicate (length s) true !! k = Some true ↔ k < length s) as Hrep.
  { intros k. rewrite lookup_replicate. split; [by intros [_ ?]|done]. }
  assert (s1Matches (matching_pass s s) = replicate (length s) true) as E1.
  { apply flags_ext; [by rewrite length_replicate|]. intros k.
    rewrite s1Matches_lookup, Hrep. split.
    - intros [j Hj]. by eapply partner_lt.
    - intros Hk. exists k. by apply partner_self. }
  assert (s2Matches (matching_pass s s) = replicate (length s) true) as E2.
  { apply flags_ext; [by rewrite length_replicate|]. intros k.
    rewrite s2Matches_lookup, Hrep. split.
    - intros [i Hi]. pose proof (partner_lt _ _ _ _ Hi) as Hlt.
      rewrite partner_self in Hi by done. congruence.
    - intros Hk. exists k. by apply partner_self. }
  do 2 (split; [done|]).
  rewrite (proj1 (matching_pass_count s s)), E1.
  clear. induction (length s) as [|n IH]; [done|].
  cbn [replicate]. rewrite popcount_cons, IH. lia.
Qed.

Lemma picked_all s : picked s (replicate (length s) true) = s.
Proof. induction s as [|c s IH]; [done|]. simpl. by rewrite IH. Qed.

Lemma mismatches_self l : mismatches l l = 0.
Proof. induction l as [|a l IH]; [done|]. simpl. by rewrite bool_decide_true. Qed.





(** ** normalize *)

Lemma trimStart_split s : ∃ sp, s = sp ++ trimStart s ∧ blank sp.
Proof.
  induction s as [|c s (sp & Hs & Hsp)]; [by exists []|]. simpl.
  destruct (is_space c) eqn:Hc.
  - exists (c :: sp). split; [simpl; congruence|by constructor].
  - by exists [].
Qed.

Lemma trimStart_clean s : starts_clean (trimStart s).
Proof.
  induction s as [|c s IH]; [done|]. simpl. by destruct (is_space c) eqn:Hc.
Qed.

Lemma trimStart_ends_clean s : ends_clean s → ends_clean (trimStart s).
Proof.
  induction s as [|c s IH]; [done|]. intros Hs. simpl.
  destruct (is_space c); [|done]. apply IH.
  intros pre x ->. by apply (Hs (c :: pre) x).
Qed.

Lemma trimEnd_split s : ∃ sp, s = trimEnd s ++ sp ∧ blank sp.
Proof.
  destruct (trimStart_split (reverse s)) as (sp & Hs & Hsp).
  exists (reverse sp). split.
  - unfold trimEnd. rewrite <- reverse_app, <- Hs. by rewrite reverse_involutive.
  - by apply Forall_reverse.
Qed.

Lemma trimEnd_clean s : ends_clean (trimEnd s).
Proof.
  intros pre c Heq. unfold trimEnd in Heq.
  apply (f_equal reverse) in Heq. rewrite reverse_involutive, reverse_snoc in Heq.
  pose proof (trimStart_clean (reverse s)) as Hc. by rewrite Heq in Hc.
Qed.

Lemma trimEnd_starts_clean s : starts_clean s → starts_clean (trimEnd s).
Proof.
  destruct (trimEnd_split s) as (sp & Hs & _).
  destruct (trimEnd s) as [|c t]; [done|]. rewrite Hs. done.
Qed.

Lemma trim_clean s : starts_clean (trim s) ∧ ends_clean (trim s).
Proof.
  split; [apply trimEnd_starts_clean, trimStart_clean|apply trimEnd_clean].
Qed.

Lemma words_from_blank cur sp : blank sp → words_from cur sp = words_from cur [].
Proof.
  intros Hsp. revert cur. induction Hsp as [|c sp Hc _ IH]; intros cur; [done|].
  simpl. rewrite Hc. destruct cur; by rewrite IH.
Qed.

Lemma words_from_app_blank cur x sp : blank sp → words_from cur (x ++ sp) = words_from cur x.
Proof.
  intros Hsp. revert cur. induction x as [|c x IH]; intros cur.
  - by apply words_from_blank.
  - simpl. destruct (is_space c); [destruct cur|]; by rewrite IH.
Qed.

Lemma words_blank_app sp x : blank sp → words (sp ++ x) = words x.
Proof.
  unfold words. induction 1 as [|c sp Hc _ IH]; [done|]. simpl. by rewrite Hc.
Qed.

Lemma words_trim s : words (trim s) = words s.
Proof.
  destruct (trimStart_split s) as (sp & Hs & Hsp).
  destruct (trimEnd_split (trimStart s)) as (sp' & Hs' & Hsp').
  trans (words (trimStart s)).
  - unfold trim, words.
    rewrite <- (words_from_app_blank [] (trimEnd (trimStart s)) sp' Hsp').
    by rewrite <- Hs'.
  - rewrite <- (words_blank_app sp (trimStart s) Hsp). by rewrite <- Hs.
Qed.

Lemma words_from_nonempty cur t : cur ≠ [] → words_from cur t ≠ [].
Proof.
  revert cur. induction t as [|c t IH]; intros cur Hcur; simpl.
  - by destruct cur.
  - destruct (is_space c); [by destruct cur|]. by apply IH.
Qed.

Lemma ends_clean_tail c t : ends_clean (c :: t) → ends_clean t.
Proof. intros H pre x ->. by apply (H (c :: pre) x). Qed.

Lemma words_nonempty t : ends_clean t → t ≠ [] → words_from [] t ≠ [].
Proof.
  induction t as [|c t IH]; [done|]. intros Hc _. simpl.
  destruct (is_space c) eqn:Hsp; [|by apply words_from_nonempty].
  apply IH; [by eapply ends_clean_tail|]. intros ->.
  specialize (Hc [] c eq_refl). congruence.
Qed.

Lemma unwords_cons w ws : ws ≠ [] → unwords (w :: ws) = w ++ space :: unwords ws.
Proof. by destruct ws. Qed.

(** The three ways in which the scan of [replace] meets the words. *)
Lemma replace_runs_words t :
  ends_clean t →
  (∀ cur, cur ≠ [] → reverse cur ++ replace_runs false t = unwords (words_from cur t)) ∧
  replace_runs true t = unwords (words_from [] t) ∧
  (starts_clean t → replace_runs false t = unwords (words_from [] t)).
Proof.
  induction t as [|c t IH]; intros Hc.
  - split; [|done]. intros cur Hcur. simpl. rewrite app_nil_r. by destruct cur.
  - destruct (IH (ends_clean_tail _ _ Hc)) as (IH1 & IH2 & _). clear IH.
    simpl. destruct (is_space c) eqn:Hsp.
    + assert (words_from [] t ≠ []) as Hne.
      { apply words_nonempty; [by eapply ends_clean_tail|]. intros ->.
        specialize (Hc [] c eq_refl). congruence. }
      split; [|split; [done|]].
      * intros cur Hcur. destruct cur as [|x cur]; [done|].
        rewrite unwords_cons by done. by rewrite IH2.
      * simpl. congruence.
    + assert (c :: replace_runs false t = unwords (words_from [c] t)) as H1.
      { rewrite <- IH1 by done. done. }
      split; [|done]. intros cur Hcur. rewrite <- IH1 by done.
      rewrite reverse_cons, <- app_assoc. done.
Qed.

Lemma words_from_solid cur s :
  solid cur →
  Forall (λ w, w ≠ [] ∧ solid w) (words_from cur s) ∧
  concat (words_from cur s) = reverse cur ++ filter (λ c, is_space c = false) s.
Proof.
  revert cur. induction s as [|c s IH]; intros cur Hcur.
  - simpl. destruct cur as [|x cur]; [done|]. split.
    + constructor; [|done]. split; [|by apply Forall_reverse].
      rewrite reverse_cons. by destruct (reverse cur).
    + simpl. by rewrite !app_nil_r.
  - simpl. destruct (is_space c) eqn:Hsp.
    + rewrite filter_cons_False by congruence.
      destruct (IH [] ltac:(constructor)) as [IH1 IH2].
      destruct cur as [|x cur]; [done|]. split.
      * constructor; [|done]. split; [|by apply Forall_reverse].
        rewrite reverse_cons. by destruct (reverse cur).
      * simpl. by rewrite IH2.
    + rewrite filter_cons_True by done.
      destruct (IH (c :: cur)) as [IH1 IH2]; [by constructor|].
      split; [done|]. rewrite IH2, reverse_cons, <- app_assoc. done.
Qed.

Lemma words_split a c b : is_space c = true → words (a ++ c :: b) = words a ++ words b.
Proof.
  intros Hc. unfold words. generalize (@nil code_unit) at 1 2 as cur.
  induction a as [|x a IH]; intros cur; simpl.
  - rewrite Hc. by destruct cur.
  - destruct (is_space x); [destruct cur|]; by rewrite IH.
Qed.

Lemma words_solid w : w ≠ [] → solid w → words w = [w].
Proof.
  intros Hne Hw. unfold words.
  assert (∀ cur, cur ≠ [] ∨ w ≠ [] → words_from cur w = [reverse cur ++ w]) as H.
  { clear Hne. induction Hw as [|c w Hc _ IH]; intros cur Hcur; simpl.
    - rewrite app_nil_r. destruct cur; [by destruct Hcur|done].
    - rewrite Hc, IH by (by left). by rewrite reverse_cons, <- app_assoc. }
  rewrite H by (by right). done.
Qed.

Lemma filter_solid w : solid w → filter (λ c, is_space c = false) w = w.
Proof.
  induction 1 as [|c w Hc _ IH]; [done|]. by rewrite filter_cons_True, IH.
Qed.

Lemma filter_unwords ws :
  Forall (λ w, w ≠ [] ∧ solid w) ws →
  filter (λ c, is_space c = false) (unwords ws) = concat ws.
Proof.
  induction 1 as [|w ws [_ Hw] Hws IH]; [done|].
  destruct ws as [|w' ws].
  - simpl. by rewrite app_nil_r, filter_solid.
  - rewrite unwords_cons by done. cbn [concat].
    rewrite filter_app, filter_solid by done.
    rewrite filter_cons_False by (by intros [=]). by rewrite IH.
Qed.

Lemma ends_clean_last t : ends_clean t ↔ ∀ c, last t = Some c → is_space c = false.
Proof.
  split.
  - intros H c [pre ->]%last_Some. by apply (H pre).
  - intros H pre c ->. apply H. by rewrite last_snoc.
Qed.

Lemma unwords_clean ws :
  Forall (λ w, w ≠ [] ∧ solid w) ws →
  starts_clean (unwords ws) ∧ ends_clean (unwords ws).
Proof.
  induction 1 as [|w ws [Hne Hw] Hws [_ IH]]; [split; [done|by intros []]|].
  assert (ends_clean w) as Hend.
  { intros pre c ->. apply Forall_app in Hw as [_ Hc]. by inversion Hc. }
  destruct ws as [|w' ws].
  - split; [|done]. destruct Hw; done.
  - rewrite unwords_cons by done. split.
    + destruct Hw; done.
    + apply ends_clean_last. intros c. rewrite last_app. cbn [last].
      destruct (unwords (w' :: ws)) as [|x u] eqn:Hu.
      * inversion Hws as [|?? [Hne' _] _]; subst. by destruct w', ws.
      * rewrite last_cons. pose proof (proj1 (ends_clean_last _) IH) as IH'.
        destruct (last (x :: u)) as [y|] eqn:Hl.
        -- intros [= <-]. by apply IH'.
        -- apply last_None in Hl. done.
Qed.

(** C9: [normalize] returns the text with leading and trailing whitespace
    removed and every maximal run of whitespace between two words replaced
    by one space: the words of the text (its maximal runs of non-whitespace
    code units) joined by single spaces. The words are the non-whitespace
    code units of the text, unchanged and in order, so case is preserved;
    the result depends on the text only. *)
Theorem normalize_words (text : jsstring) :
  normalize text = unwords (words text) ∧
  Forall (λ w, w ≠ [] ∧ solid w) (words text) ∧
  concat (words text) = filter (λ c, is_space c = false) text ∧
  filter (λ c, is_space c = false) (normalize text)
  = filter (λ c, is_space c = false) text ∧
  starts_clean (normalize text) ∧ ends_clean (normalize text).
Proof.
  assert (normalize text = unwords (words text)) as Heq.
  { unfold normalize. destruct (trim_clean text) as [Hs He].
    destruct (replace_runs_words (trim text) He) as (_ & _ & H).
    rewrite H by done. fold (words (trim text)). by rewrite words_trim. }
  destruct (words_from_solid [] text) as [Hall Hcat]; [constructor|].
  fold (words text) in Hall, Hcat. rewrite reverse_nil, app_nil_l in Hcat.
  split; [done|]. split; [done|]. split; [done|].
  rewrite Heq. split; [by rewrite filter_unwords|]. by apply unwords_clean.
Qed.

Example normalize_sample :
  normalize [32; 97; 9; 10; 98; 32; 32; 67; 160]%N = [97; 32; 98; 32; 67]%N.
Proof. reflexivity. Qed.

(** ** handler *)

Lemma jaroWinkler_total A s1 s2 : is_Some (jaroWinkler A s1 s2).
Proof. rewrite jaroWinkler_eq. cbv zeta. repeat case_match; by eexists. Qed.

Lemma truthy_string A (s : jsstring) : s ≠ [] → truthy A (VString s) = true.
Proof. by destruct s. Qed.

Section HandlerProperties.
Context (A : JSNumber) (Extractor Tensor : Type).
Context (pipeline : nat → result Extractor).
Context (run_model : Extractor → jsstring → jsstring → result (Tensor * Tensor)).
Context (cos_sim : Tensor → Tensor → num A).
Context (toLowerCase : jsstring → jsstring).

Local Abbreviation handle :=
  (handler A Extractor Tensor pipeline run_model cos_sim toLowerCase).
Local Abbreviation post u c thr :=
  {| method := POST;
     req_body := Some {| userAnswer := u; correctAnswer := c; threshold := thr |} |}.

Lemma fast_path (u c : jsstring) thr w :
  u ≠ [] → c ≠ [] →
  toLowerCase (normalize u) = toLowerCase (normalize c) →
  handle (post (VString u) (VString c) thr) w
  = Some (respond A 200 (DecisionBody (exact_match A)), w).
Proof.
  intros Hu Hc Heq. unfold handler, score. cbn [method req_body userAnswer correctAnswer].
  rewrite !truthy_string by done. cbn [negb orb normalize_value].
  unfold mbind, M_bind, lift. rewrite bool_decide_true by done. reflexivity.
Qed.

(** C2: when the normalized, lower-cased forms of two non-empty answers are
  equal, the engine short-circuits: it answers 200 with [isCorrect = true],
  [confidence = 1.0] and the four scores [exact], [semantic],
  [jaroWinkler] and [combined] equal to 1.0, whatever the threshold, and
  leaves the world as it was: no model is loaded and the provider is not
  called. *)
Theorem exact_match_short_circuit (u c : jsstring) thr w :
u ≠ [] → c ≠ [] →
toLowerCase (normalize u) = toLowerCase (normalize c) →
∃ d,
  handle (post (VString u) (VString c) thr) w = Some (respond A 200 (DecisionBody d), w) ∧
  d_isCorrect A d = true ∧
  d_confidence A d = of_nat A 1 ∧
  sc_exact A (d_scores A d) = Some (of_nat A 1) ∧
  sc_semantic A (d_scores A d) = of_nat A 1 ∧
  sc_jaroWinkler A (d_scores A d) = of_nat A 1 ∧
  sc_combined A (d_scores A d) = of_nat A 1.
Proof.
intros Hu Hc Heq. exists (exact_match A). split; [by apply fast_path|done].
Qed.

(** The answer of the exact-match fast path has no [threshold] property,
  also when the request carries a threshold. *)
Lemma exact_match_omits_threshold (u c : jsstring) (t : num A) w :
u ≠ [] → c ≠ [] →
toLowerCase (normalize u) = toLowerCase (normalize c) →
∃ d,
  handle (post (VString u) (VString c) (Some t)) w
  = Some (respond A 200 (DecisionBody d), w) ∧
  d_threshold A d = None.
Proof.
intros Hu Hc Heq. exists (exact_match A). split; [by apply fast_path|done].
Qed.

(** C7, as the code has it: a request in which [userAnswer] or
  [correctAnswer] is absent or falsy (undefined, null, the empty string)
  is rejected with 400 before anything is normalised or scored, and the
  world is left as it was: no model is loaded and the provider is not
  called. The test is on the value as sent, not on the trimmed string. *)
Theorem missing_input_rejected (b : body A) w :
truthy A (userAnswer A b) = false ∨ truthy A (correctAnswer A b) = false →
handle {| method := POST; req_body := Some b |} w
= Some (respond A 400
          (ErrorBody "Both userAnswer and correctAnswer are required" None), w).
Proof.
intros H. unfold handler, score. cbn [method req_body].
assert (negb (truthy A (userAnswer A b)) || negb (truthy A (correctAnswer A b)) = true)
  as ->; [|done].
destruct H as [-> | ->]; [done|]. by rewrite orb_true_r.
Qed.

(** C1: a request with two non-empty answers whose normalized, lower-cased
  forms differ, served by a provider that answers, is scored:
  [combined = semantic * 0.8 + jaroWinkler * 0.2], [confidence] is
  [combined], [isCorrect] is [combined >= threshold] (the threshold of the
  request, 0.75 when it has none), and the comparison is inclusive: when
  [combined] equals the threshold, [isCorrect] is true (for a threshold
  that [>=] relates to itself, as every number but NaN). *)
Theorem combined_score_decision (u c : jsstring) thr w e w1 out :
u ≠ [] → c ≠ [] →
toLowerCase (normalize u) ≠ toLowerCase (normalize c) →
getExtractor Extractor pipeline w = Some (Ok e, w1) →
run_model e (normalize u) (normalize c) = Ok out →
∃ jaroScore,
  jaroWinkler A (toLowerCase (normalize u)) (toLowerCase (normalize c)) = Some jaroScore ∧
  let semanticScore := cos_sim out.1 out.2 in
  let combinedScore := (semanticScore * lit_0_8 A + jaroScore * lit_0_2 A)%num in
  let threshold := default (lit_0_75 A) thr in
  handle (post (VString u) (VString c) thr) w
  = Some (respond A 200 (DecisionBody
            {| d_isCorrect := (combinedScore >=? threshold)%num;
               d_confidence := combinedScore;
               d_scores := {| sc_exact := None; sc_semantic := semanticScore;
                              sc_jaroWinkler := jaroScore;
                              sc_combined := combinedScore |};
               d_threshold := Some threshold |}),
          {| extractor := extractor Extractor w1;
             pipeline_loads := pipeline_loads Extractor w1;
             provider_calls := provider_calls Extractor w1 ++ [(normalize u, normalize c)] |}) ∧
  ((threshold >=? threshold)%num = true → combinedScore = threshold →
   (combinedScore >=? threshold)%num = true).
Proof.
intros Hu Hc Hne Hext Hrun.
destruct (jaroWinkler_total A (toLowerCase (normalize u)) (toLowerCase (normalize c)))
  as [jaroScore Hjw].
exists jaroScore. split; [done|]. cbv zeta. split; [|by intros ? ->].
unfold handler, score. cbn [method req_body userAnswer correctAnswer threshold].
rewrite !truthy_string by done. cbn [negb orb normalize_value].
unfold mbind, M_bind, lift. rewrite bool_decide_false by done.
rewrite Hext. unfold call_model. rewrite Hrun.
unfold returning. rewrite Hjw. reflexivity.
Qed.

(** Every decision that the handler answers is the exact-match one or a
  scored one, and a scored one obeys the combination rule. *)
Lemma decision_shape req w resp w' d :
handle req w = Some (resp, w') → content A resp = DecisionBody d →
status A resp = 200 ∧
(d = exact_match A ∨
 ∃ b, req_body A req = Some b ∧
   sc_exact A (d_scores A d) = None ∧
   sc_combined A (d_scores A d)
   = (sc_semantic A (d_scores A d) * lit_0_8 A
      + sc_jaroWinkler A (d_scores A d) * lit_0_2 A)%num ∧
   d_confidence A d = sc_combined A (d_scores A d) ∧
   d_threshold A d = Some (default (lit_0_75 A) (threshold A b)) ∧
   d_isCorrect A d
   = (sc_combined A (d_scores A d) >=? default (lit_0_75 A) (threshold A b))%num).
Proof.
unfold handler. destruct (method A req); [by intros [= <- <-]| |by intros [= <- <-]].
destruct (req_body A req) as [b|]; [|by intros [= <- <-]].
unfold score. destruct (_ || _); [by intros [= <- <-]|].
unfold mbind, M_bind, lift.
destruct (normalize_value A (userAnswer A b)) as [nu|]; [|by intros [= <- <-]].
destruct (normalize_value A (correctAnswer A b)) as [nc|]; [|by intros [= <- <-]].
case_bool_decide.
{ intros [= <- <-] [= <-]. split; [done|by left]. }
destruct (getExtractor Extractor pipeline w) as [[[e|msg] w1]|]; [| |done].
2:{ by intros [= <- <-]. }
unfold call_model. destruct (run_model e nu nc) as [out|msg]; [|by intros [= <- <-]].
unfold returning. destruct (jaroWinkler A _ _) as [jaroScore|]; [|done]. simpl.
intros [= <- <-] [= <-]. split; [done|]. right. exists b. by repeat split.
Qed.

(** C8, as the code has it: a decision of the combined-scoring path (no
  [exact] score) carries the [threshold] property, with the threshold of
  the request or 0.75; the decision of the exact-match fast path (the one
  with an [exact] score) is [{isCorrect, confidence, scores}] and carries
  none. *)
Theorem threshold_field_by_path req w resp w' d :
handle req w = Some (resp, w') → content A resp = DecisionBody d →
match sc_exact A (d_scores A d) with
| Some _ => d = exact_match A ∧ d_threshold A d = None
| None =>
    ∃ b, req_body A req = Some b ∧
         d_threshold A d = Some (default (lit_0_75 A) (threshold A b))
end.
Proof.
intros Hrun Hd. destruct (decision_shape req w resp w' d Hrun Hd) as [_ [->|H]].
- done.
- destruct H as (b & Hb & -> & _ & _ & Ht & _). by exists b.
Qed.
End HandlerProperties.

(** ** Concrete requests *)

Lemma float_ge_refl (x : float) : PrimFloat.is_nan x = false → nge binary64 x x = true.
Proof.
  unfold PrimFloat.is_nan. cbn [nge binary64]. intros H%negb_false_iff.
  rewrite FloatAxioms.eqb_spec in H. rewrite FloatAxioms.leb_spec.
  unfold SFleb. unfold SFeqb in H. by destruct (SFcompare _ _) as [[]|].
Qed.

Lemma exact_ge_refl (x : Q) : nge exact x x = true.
Proof. cbn [nge exact]. apply Qle_bool_iff. apply Qle_refl. Qed.

Example jaroWinkler_martha :
  jaroWinkler binary64 (js "MARTHA") (js "MARHTA") = Some 0x1.ec16c16c16c17p-1%float ∧
  jaroWinkler exact (js "MARTHA") (js "MARHTA") = Some (16142976 # 16796160)%Q.
Proof. split; vm_compute; reflexivity. Qed.

Example matching_martha :
  matches (matching_pass (js "MARTHA") (js "MARHTA")) = 6 ∧
  transposition_pass (js "MARTHA") (js "MARHTA")
    (s1Matches (matching_pass (js "MARTHA") (js "MARHTA")))
    (s2Matches (matching_pass (js "MARTHA") (js "MARHTA"))) = Some 2 ∧
  common_prefix (js "MARTHA") (js "MARHTA") = 3.
Proof. repeat split. Qed.

Example scenario_A :
  stub_handler 0.5%float (post_answers "Paris" "paris" None) cold_start
  = Some (respond binary64 200 (DecisionBody (exact_match binary64)), cold_start).
Proof. vm_compute. reflexivity. Qed.

Example scenario_B :
  ∃ d w',
    stub_handler 0%float (post_answers "Jaro Winkler" "Jaro-Wnkler" None) cold_start
    = Some (respond binary64 200 (DecisionBody d), w') ∧
    sc_jaroWinkler binary64 (d_scores binary64 d) = 0x1.e59fce59fce59p-1%float ∧
    sc_combined binary64 (d_scores binary64 d)
    = (sc_jaroWinkler binary64 (d_scores binary64 d) * lit_0_2 binary64)%float ∧
    d_isCorrect binary64 d = false.
Proof. eexists _, _. split; [vm_compute; reflexivity|]. repeat split. Qed.

Lemma exact_match_short_circuit_witness :
  ∃ d,
    stub_handler 0.5%float (post_answers "Paris" "paris" None) cold_start
    = Some (respond binary64 200 (DecisionBody d), cold_start) ∧
    d_isCorrect binary64 d = true ∧
    d_confidence binary64 d = 1%float ∧
    sc_exact binary64 (d_scores binary64 d) = Some 1%float ∧
    sc_semantic binary64 (d_scores binary64 d) = 1%float ∧
    sc_jaroWinkler binary64 (d_scores binary64 d) = 1%float ∧
    sc_combined binary64 (d_scores binary64 d) = 1%float.
Proof.
  apply (exact_match_short_circuit binary64 unit unit stub_pipeline stub_model
           (@stub_cos_sim binary64 0.5%float) ascii_lower (js "Paris") (js "paris") None cold_start).
  - discriminate.
  - discriminate.
  - reflexivity.
Defined.

(** Against C8 as written: the answer to an exact match has no [threshold]
    property, though the request carries a threshold. *)
Lemma exact_match_answer_has_no_threshold :
  ∃ d,
    stub_handler 0.5%float (post_answers "Hello  World" "hello world" (Some 0.5%float))
                 cold_start
    = Some (respond binary64 200 (DecisionBody d), cold_start) ∧
    sc_exact binary64 (d_scores binary64 d) = Some 1%float ∧
    d_threshold binary64 d = None.
Proof. eexists. split; [vm_compute; reflexivity|]. by split. Qed.

Lemma threshold_field_by_path_witness :
  stub_handler 1%float (post_answers "ab" "cd" (Some (lit_0_8 binary64))) cold_start
  = Some (respond binary64 200 (DecisionBody sample_decision), sample_world) ∧
  ∃ b, req_body binary64 (post_answers "ab" "cd" (Some (lit_0_8 binary64))) = Some b ∧
       d_threshold binary64 sample_decision
       = Some (default (lit_0_75 binary64) (threshold binary64 b)).
Proof.
  assert (stub_handler 1%float (post_answers "ab" "cd" (Some (lit_0_8 binary64))) cold_start
          = Some (respond binary64 200 (DecisionBody sample_decision), sample_world)) as Hrun.
  { vm_compute. reflexivity. }
  split; [exact Hrun|].
  exact (threshold_field_by_path binary64 unit unit stub_pipeline stub_model
           (@stub_cos_sim binary64 1%float) ascii_lower _ _ _ _ sample_decision
           Hrun eq_refl).
Defined.

Lemma missing_input_rejected_witness :
  stub_handler 0.5%float (post_answers "" "paris" None) cold_start
  = Some (respond binary64 400
            (ErrorBody "Both userAnswer and correctAnswer are required" None),
          cold_start).
Proof.
  apply (missing_input_rejected binary64 unit unit stub_pipeline stub_model
           (@stub_cos_sim binary64 0.5%float) ascii_lower
           {| userAnswer := VString (js ""); correctAnswer := VString (js "paris");
              threshold := None |} cold_start).
  left. reflexivity.
Defined.

(** Against C7 as written: an answer of whitespace only is empty after
    trimming, yet the request is not rejected; the model is loaded, the
    provider is called on the pair and the answer is a 200. *)
Lemma whitespace_only_answer_is_scored :
  trim (js " ") = [] ∧
  ∃ resp w',
    stub_handler 0.5%float (post_answers " " "x" None) cold_start = Some (resp, w') ∧
    status binary64 resp = 200 ∧
    pipeline_loads unit w' = 1 ∧
    provider_calls unit w' = [(js "", js "x")].
Proof.
  split; [reflexivity|]. eexists _, _. split; [vm_compute; reflexivity|].
  repeat split.
Qed.

Lemma combined_score_decision_witness :
  ∃ d w',
    stub_handler 1%float (post_answers "ab" "cd" (Some (lit_0_8 binary64))) cold_start
    = Some (respond binary64 200 (DecisionBody d), w') ∧
    sc_semantic binary64 (d_scores binary64 d) = 1%float ∧
    sc_jaroWinkler binary64 (d_scores binary64 d) = 0%float ∧
    sc_combined binary64 (d_scores binary64 d) = (lit_0_8 binary64) ∧
    d_threshold binary64 d = Some (lit_0_8 binary64) ∧
    d_isCorrect binary64 d = true ∧
    provider_calls unit w' = [(js "ab", js "cd")].
Proof.
  destruct (combined_score_decision binary64 unit unit stub_pipeline stub_model
              (@stub_cos_sim binary64 1%float) ascii_lower (js "ab") (js "cd") (Some (lit_0_8 binary64))
              cold_start tt
              {| extractor := Some tt; pipeline_loads := 1; provider_calls := [] |}
              (tt, tt))
    as (jaroScore & Hjw & Hrun & Hinclusive).
  - discriminate.
  - discriminate.
  - discriminate.
  - reflexivity.
  - reflexivity.
  - vm_compute in Hjw. injection Hjw as <-.
    eexists _, _. split; [exact Hrun|]. repeat split.
Defined.

(** * Further properties *)

(** ** jaroWinkler, further *)

(** X1: what the matching pass leaves behind. The set flags of the two
    arrays are the two ends of the pairs that the iterations claimed;
    [matches] counts them; a pair holds equal code units, at most the match
    window apart; no position of [s2] is claimed twice; and no pair of equal
    code units within the window is left with both ends unmatched. *)
Theorem first_fit_matching (s1 s2 : jsstring) :
  let st := matching_pass s1 s2 in
  let w := matchWindow (length s1) (length s2) in
  length (s1Matches st) = length s1 ∧ length (s2Matches st) = length s2 ∧
  matches st = popcount (s1Matches st) ∧ matches st = popcount (s2Matches st) ∧
  (∀ i, flag (s1Matches st) i = true ↔ ∃ j, partner s1 s2 i = Some j) ∧
  (∀ j, flag (s2Matches st) j = true ↔ ∃ i, partner s1 s2 i = Some j) ∧
  (∀ i j, partner s1 s2 i = Some j →
     i < length s1 ∧ j < length s2 ∧ s1 !! i = s2 !! j ∧ in_window w i j) ∧
  (∀ i i' j, partner s1 s2 i = Some j → partner s1 s2 i' = Some j → i = i') ∧
  (∀ i j, i < length s1 → j < length s2 → s1 !! i = s2 !! j → in_window w i j →
     flag (s1Matches st) i = true ∨ flag (s2Matches st) j = true).
Proof.
  cbv zeta.
  destruct (matching_pass_lengths s1 s2) as [L1 L2].
  destruct (matching_pass_count s1 s2) as [C1 C2].
  do 4 (split; [done|]). split; [|split; [|split; [|split]]].
  - intros i. by rewrite flag_true, s1Matches_lookup.
  - intros j. by rewrite flag_true, s2Matches_lookup.
  - intros i j H. destruct (partner_Some _ _ _ _ H) as (Hj & Hw & Hc & _).
    split; [by eapply partner_lt|]. done.
  - apply partner_inj.
  - intros i j Hi Hj Hc Hw. rewrite !flag_true, s1Matches_lookup, s2Matches_lookup.
    destruct (can_max _ _ _ _ (partner_canonical s1 s2) i j) as [[j' H]|[i' H]];
      [by apply lookup_lt_is_Some|done|done| |].
    + left. by exists j'.
    + right. by exists i'.
Qed.

(** X2: on the flags of the matching pass the transposition pass returns the
    number of places at which the matched code units of [s1] and the matched
    code units of [s2], each read in order, differ; both sequences have
    [matches] code units, so the count is at most [matches]. *)
Theorem transpositions_counted (s1 s2 : jsstring) :
  let st := matching_pass s1 s2 in
  let M1 := picked s1 (s1Matches st) in
  let M2 := picked s2 (s2Matches st) in
  transposition_pass s1 s2 (s1Matches st) (s2Matches st) = Some (mismatches M1 M2) ∧
  length M1 = matches st ∧ length M2 = matches st ∧
  mismatches M1 M2 ≤ matches st.
Proof.
  cbv zeta.
  destruct (matching_pass_lengths s1 s2) as [L1 L2].
  destruct (matching_pass_count s1 s2) as [C1 C2].
  split; [apply matching_pass_transpositions|].
  rewrite !picked_length by done. do 2 (split; [done|]).
  etrans; [apply mismatches_le|]. rewrite picked_length by done. lia.
Qed.

Lemma popcount_zero (l : list bool) : (∀ k, l !! k ≠ Some true) → popcount l = 0.
Proof.
  induction l as [|b l IH]; intros H; [done|].
  rewrite popcount_cons. destruct b.
  - by destruct (H 0).
  - rewrite IH; [done|]. intros k. apply (H (S k)).
Qed.

Lemma popcount_pos_inv (l : list bool) : 0 < popcount l → ∃ k, l !! k = Some true.
Proof.
  induction l as [|b l IH]; [unfold popcount; simpl; lia|].
  rewrite popcount_cons. destruct b.
  - intros _. by exists 0.
  - intros H. destruct IH as [k Hk]; [lia|]. by exists (S k).
Qed.

Lemma matches_zero_iff s1 s2 :
  matches (matching_pass s1 s2) = 0 ↔ ∀ i, partner s1 s2 i = None.
Proof.
  rewrite (proj1 (matching_pass_count s1 s2)). split.
  - intros H i. destruct (partner s1 s2 i) as [j|] eqn:Hp; [|done].
    assert (s1Matches (matching_pass s1 s2) !! i = Some true) as Hi.
    { apply s1Matches_lookup. by eexists. }
    apply popcount_pos in Hi. lia.
  - intros H. apply popcount_zero. intros k Hk%s1Matches_lookup.
    rewrite H in Hk. by destruct Hk.
Qed.

(** X3: two strings with no code unit in common score 0.0, in any
    arithmetic (unless both are empty, which score 1.0). *)
Theorem no_common_code_unit_scores_zero (A : JSNumber) (s1 s2 : jsstring) :
  s1 ≠ [] ∨ s2 ≠ [] → (∀ c, c ∈ s1 → c ∉ s2) →
  jaroWinkler A s1 s2 = Some (of_nat A 0).
Proof.
  intros Hne Hdisj. rewrite jaroWinkler_eq. cbv zeta.
  assert (matches (matching_pass s1 s2) = 0) as ->.
  { apply matches_zero_iff. intros i.
    destruct (partner s1 s2 i) as [j|] eqn:Hp; [exfalso|done].
    destruct (partner_Some _ _ _ _ Hp) as (Hj & _ & Hc & _).
    destruct (lookup_lt_is_Some_2 s2 j Hj) as [c Hcj].
    apply (Hdisj c); apply list_elem_of_lookup; [exists i; congruence|by exists j]. }
  destruct s1, s2; simpl; try done. by destruct Hne.
Qed.

Lemma no_common_code_unit_scores_zero_witness :
  jaroWinkler binary64 (js "abc") (js "xy") = Some 0%float.
Proof.
  apply (no_common_code_unit_scores_zero binary64 (js "abc") (js "xy")).
  - left. discriminate.
  - intros c Hc Hc'. vm_compute in Hc, Hc'.
    repeat (apply elem_of_cons in Hc as [->|Hc]);
      repeat (apply elem_of_cons in Hc' as [Hc'|Hc']; [discriminate|]);
      try (by apply elem_of_nil in Hc'); by apply elem_of_nil in Hc.
Defined.

Lemma score_above_sixth (m n c t p : nat) :
  0 < c → c ≤ m → c ≤ n → t ≤ c →
  (1 # 6 < winkler exact (jaro_score exact m n c t) p)%Q.
Proof.
  intros Hc Hm Hn Ht.
  pose proof (inject_nat_pos c Hc) as Hc0.
  pose proof (inject_nat_le _ _ Hm) as Hm'. pose proof (inject_nat_le _ _ Hn) as Hn'.
  pose proof (inject_nat_le _ _ Ht) as Ht'.
  pose proof (inject_nat_le 0 t ltac:(lia)) as Ht0.
  pose proof (inject_nat_le 0 p ltac:(lia)) as Hp0.
  change (inject_Z (Z.of_nat 0)) with 0%Q in *.
  assert (0 < inject_Z (Z.of_nat c) / inject_Z (Z.of_nat m)
          ∧ inject_Z (Z.of_nat c) / inject_Z (Z.of_nat m) <= 1)%Q as Ha.
  { split; [apply Qlt_shift_div_l; lra|apply Qle_shift_div_r; lra]. }
  assert (0 < inject_Z (Z.of_nat c) / inject_Z (Z.of_nat n)
          ∧ inject_Z (Z.of_nat c) / inject_Z (Z.of_nat n) <= 1)%Q as Hb.
  { split; [apply Qlt_shift_div_l; lra|apply Qle_shift_div_r; lra]. }
  assert ((1 # 2) <= (inject_Z (Z.of_nat c) - inject_Z (Z.of_nat t) / 2)
                     / inject_Z (Z.of_nat c)
          ∧ (inject_Z (Z.of_nat c) - inject_Z (Z.of_nat t) / 2)
            / inject_Z (Z.of_nat c) <= 1)%Q as Hd.
  { split; [apply Qle_shift_div_l|apply Qle_shift_div_r]; try done;
      unfold Qdiv; change (/ 2)%Q with (1 # 2)%Q; lra. }
  unfold winkler, jaro_score. cbn [exact num of_nat nadd nsub nmul ndiv lit_0_1].
  change (inject_Z (Z.of_nat 1)) with 1%Q. change (inject_Z (Z.of_nat 2)) with 2%Q.
  change (inject_Z (Z.of_nat 3)) with 3%Q.
  set (x := (inject_Z (Z.of_nat c) / inject_Z (Z.of_nat m))%Q) in *.
  set (y := (inject_Z (Z.of_nat c) / inject_Z (Z.of_nat n))%Q) in *.
  set (z := ((inject_Z (Z.of_nat c) - inject_Z (Z.of_nat t) / 2)
             / inject_Z (Z.of_nat c))%Q) in *.
  set (q := inject_Z (Z.of_nat p)) in *.
  unfold Qdiv. change (/ 3)%Q with (1 # 3)%Q.
  set (j := ((x + y + z) * (1 # 3))%Q).
  assert (1 # 6 < j ∧ j <= 1)%Q as Hj by (unfold j; lra).
  clearbody j x y z q. nra.
Qed.

(** X4: in exact arithmetic the score is 0 or more than 1/6, never in
    between; it is positive exactly when both strings are empty or the
    matching pass finds a pair. *)
Theorem score_zero_or_above_sixth (a b : jsstring) :
  ∃ x : Q, jaroWinkler exact a b = Some x ∧
    ((x == 0)%Q ∨ (1 # 6 < x)%Q) ∧
    ((0 < x)%Q ↔ (a = [] ∧ b = []) ∨ ∃ i j, partner a b i = Some j).
Proof.
  rewrite jaroWinkler_eq. cbv zeta.
  assert (matches (matching_pass a b) ≠ 0 ↔ ∃ i j, partner a b i = Some j) as Hm.
  { rewrite matches_zero_iff. split.
    - intros H. destruct (matching_pass_count a b) as [C _].
      destruct (popcount_pos_inv (s1Matches (matching_pass a b))) as [i Hi].
      { rewrite <- C. destruct (matches (matching_pass a b)) eqn:E; [|lia].
        exfalso. apply H. by apply matches_zero_iff. }
      apply s1Matches_lookup in Hi as [j Hj]. eauto.
    - intros (i & j & Hp) H. by rewrite H in Hp. }
  destruct a as [|ca a], b as [|cb b]; cbn [length Nat.eqb andb orb].
  - exists 1%Q. split; [done|]. split; [by right|]. split; [by left|done].
  - exists 0%Q. split; [done|]. split; [by left|]. split; [by intros ?|].
    intros [[_ [=]]|(i & j & Hp)]. apply partner_lt in Hp. simpl in Hp. lia.
  - exists 0%Q. split; [done|]. split; [by left|]. split; [by intros ?|].
    intros [[[=] _]|(i & j & Hp)].
    destruct (partner_Some _ _ _ _ Hp) as (Hj & _). simpl in Hj. lia.
  - destruct (matches _ =? 0) eqn:Hz.
    + apply Nat.eqb_eq in Hz. exists 0%Q. split; [done|]. split; [by left|].
      split; [by intros ?|]. intros [[[=] _]|H]. apply Hm in H. done.
    + apply Nat.eqb_neq in Hz. eexists. split; [done|].
      destruct (counters_bounds (ca :: a) (cb :: b)) as (? & ? & ? & ?).
      assert (1 # 6 < winkler exact
                (jaro_score exact (length (ca :: a)) (length (cb :: b))
                   (matches (matching_pass (ca :: a) (cb :: b)))
                   (mismatches
                      (picked (ca :: a) (s1Matches (matching_pass (ca :: a) (cb :: b))))
                      (picked (cb :: b) (s2Matches (matching_pass (ca :: a) (cb :: b))))))
                (common_prefix (ca :: a) (cb :: b)))%Q as Hgap.
      { apply score_above_sixth; [lia|done..]. }
      split; [by right|]. split; [intros _; right; by apply Hm|].
      intros _. apply (Qlt_trans 0 (1 # 6)); [reflexivity|exact Hgap].
Qed.

Lemma prefix_loop_spec s1 s2 cnt : ∀ i p,
  i + cnt ≤ length s1 → i + cnt ≤ length s2 → take i s1 = take i s2 →
  let r := prefix_loop s1 s2 i cnt p in
  p ≤ r ≤ p + cnt ∧
  take (i + (r - p)) s1 = take (i + (r - p)) s2 ∧
  (r - p < cnt → s1 !! (i + (r - p)) ≠ s2 !! (i + (r - p))).
Proof.
  induction cnt as [|cnt IH]; intros i p H1 H2 Ht; cbn [prefix_loop]; cbv zeta.
  - rewrite Nat.sub_diag, (Nat.add_0_r i). split; [lia|]. split; [done|]. intros ?. lia.
  - destruct (differ (s1 !! i) (s2 !! i)) eqn:Hd.
    + rewrite Nat.sub_diag, (Nat.add_0_r i). split; [lia|]. split; [done|].
      intros _. unfold differ in Hd. by apply negb_true_iff, bool_decide_eq_false in Hd.
    + unfold differ in Hd. apply negb_false_iff, bool_decide_eq_true in Hd.
      destruct (lookup_lt_is_Some_2 s1 i) as [x Hx]; [lia|].
      assert (s2 !! i = Some x) as Hx' by congruence.
      destruct (IH (S i) (S p)) as (Hr & Htake & Hstop); [lia|lia| |].
      { by rewrite (take_S_r _ _ _ Hx), (take_S_r _ _ _ Hx'), Ht. }
      replace (i + (prefix_loop s1 s2 (S i) cnt (S p) - p))
        with (S i + (prefix_loop s1 s2 (S i) cnt (S p) - S p)) by lia.
      split; [lia|]. split; [done|]. intros ?. apply Hstop. lia.
Qed.

(** X5: the prefix loop returns the length of the longest common prefix of
    the two strings, capped at 4: the strings agree on that many leading
    code units, and below the cap they differ at the next position unless
    one of them ends there. *)
Theorem common_prefix_spec (s1 s2 : jsstring) :
  let p := common_prefix s1 s2 in
  p ≤ 4 ∧ p ≤ length s1 ∧ p ≤ length s2 ∧
  take p s1 = take p s2 ∧
  (p < 4 → p = length s1 ∨ p = length s2 ∨ s1 !! p ≠ s2 !! p).
Proof.
  cbv zeta. unfold common_prefix.
  set (cnt := Nat.min (Nat.min (length s1) (length s2)) 4).
  destruct (prefix_loop_spec s1 s2 cnt 0 0) as (Hr & Htake & Hstop); [lia|lia|done|].
  rewrite Nat.sub_0_r in Htake, Hstop. simpl in Htake, Hstop.
  do 3 (split; [lia|]). split; [done|].
  intros Hp. destruct (decide (prefix_loop s1 s2 0 cnt 0 < cnt)) as [Hlt|Hge].
  - right; right. by apply Hstop.
  - lia.
Qed.

Lemma prefix_loop_self s i cnt p : prefix_loop s s i cnt p = p + cnt.
Proof.
  revert i p. induction cnt as [|cnt IH]; intros i p; simpl; [lia|].
  unfold differ. rewrite bool_decide_true by done. simpl. rewrite IH. lia.
Qed.

Lemma float_eqb_one (x : float) : PrimFloat.eqb x 1 = true → x = 1%float.
Proof.
  intros H. apply Prim2SF_inj. rewrite FloatAxioms.eqb_spec in H.
  assert (Prim2SF 1 = S754_finite false 4503599627370496 (-52)) as E
    by (vm_compute; reflexivity).
  rewrite E in *. clear E. unfold SFeqb, SFcompare in H.
  destruct (Prim2SF x) as [s|s| |s m e]; try done.
  - by destruct s.
  - destruct s; [done|].
    destruct (Z.compare_spec e (-52)) as [E|E|E]; try done. subst e.
    rewrite Pos.compare_cont_spec in H. simpl in H.
    destruct (Pos.compare_spec m 4503599627370496) as [E|E|E]; try done. by subst m.
Qed.

Lemma self_scores_ok_1023 : self_scores_ok_upto 1023 = true.
Proof. vm_cast_no_check (eq_refl true). Qed.

(** X6: on binary64 a string of 2 to 1024 code units scores exactly 1.0
    against itself. *)
Theorem jaroWinkler_self_binary64 (s : jsstring) :
  2 ≤ length s ≤ 1024 → jaroWinkler binary64 s s = Some 1%float.
Proof.
  intros [Hlo Hhi]. rewrite jaroWinkler_eq. cbv zeta.
  destruct (matching_pass_self s Hlo) as (-> & -> & ->).
  rewrite picked_all, mismatches_self.
  destruct (length s =? 0) eqn:Hz; [apply Nat.eqb_eq in Hz; lia|]. simpl.
  f_equal. apply float_eqb_one.
  unfold common_prefix. rewrite prefix_loop_self, Nat.min_id. simpl.
  apply (forallb_seq self_score_ok 2 1023 (length s) self_scores_ok_1023). lia.
Qed.

Lemma jaroWinkler_self_binary64_witness :
  jaroWinkler binary64 (js "paris") (js "paris") = Some 1%float.
Proof.
  apply (jaroWinkler_self_binary64 (js "paris")). simpl. lia.
Defined.

(** ** normalize, further *)

Lemma words_unwords ws : Forall (λ w, w ≠ [] ∧ solid w) ws → words (unwords ws) = ws.
Proof.
  induction 1 as [|w ws [Hne Hw] Hws IH]; [done|].
  destruct ws as [|w' ws].
  - simpl. by apply words_solid.
  - rewrite unwords_cons by done. rewrite words_split by done.
    by rewrite IH, words_solid.
Qed.

Lemma words_all text : Forall (λ w, w ≠ [] ∧ solid w) (words text).
Proof. by destruct (words_from_solid [] text) as [H _]; [constructor|]. Qed.

Lemma normalize_unwords text : normalize text = unwords (words text).
Proof.
  unfold normalize. destruct (trim_clean text) as [Hs He].
  destruct (replace_runs_words (trim text) He) as (_ & _ & H).
  rewrite H by done. fold (words (trim text)). by rewrite words_trim.
Qed.

Lemma words_normalize text : words (normalize text) = words text.
Proof. rewrite normalize_unwords. apply words_unwords, words_all. Qed.

(** X7: [normalize] is idempotent: a normalized text is left as it is. *)
Theorem normalize_idempotent (text : jsstring) : normalize (normalize text) = normalize text.
Proof.
  rewrite (normalize_unwords (normalize text)), words_normalize.
  symmetry. apply normalize_unwords.
Qed.

(** X8: two texts have the same normal form exactly when they have the same
    words in the same order; how much whitespace, and of which kind, lies
    before, between and after the words does not matter. *)
Theorem normalize_eq_iff_words (t1 t2 : jsstring) :
  normalize t1 = normalize t2 ↔ words t1 = words t2.
Proof.
  split.
  - intros H. by rewrite <- (words_normalize t1), H, words_normalize.
  - intros H. by rewrite !normalize_unwords, H.
Qed.

Lemma words_nil_blank text : words text = [] ↔ blank text.
Proof.
  split.
  - intros H. destruct (words_from_solid [] text) as [_ Hcat]; [constructor|].
    fold (words text) in Hcat. rewrite H in Hcat. simpl in Hcat.
    clear H. induction text as [|c text IH]; [constructor|].
    destruct (is_space c) eqn:Hc.
    + rewrite filter_cons_False in Hcat by congruence. constructor; [done|by apply IH].
    + by rewrite filter_cons_True in Hcat.
  - intros H. unfold words. by rewrite words_from_blank.
Qed.

(** X9: the normal form is empty exactly for a text of whitespace only (the
    empty text included). *)
Theorem normalize_empty_iff_blank (text : jsstring) : normalize text = [] ↔ blank text.
Proof.
  rewrite <- words_nil_blank, normalize_unwords. split.
  - intros H. pose proof (words_all text) as Hall.
    destruct (words text) as [|w ws]; [done|]. exfalso.
    inversion Hall as [|?? [Hne _] _]; subst.
    destruct ws; [by simpl in H|]. rewrite unwords_cons in H by done.
    by destruct w.
  - by intros ->.
Qed.

Lemma replace_runs_length b s : length (replace_runs b s) ≤ length s.
Proof.
  revert b. induction s as [|c s IH]; intros b; [done|]. simpl.
  pose proof (IH true). pose proof (IH false).
  destruct (is_space c); [destruct b|]; simpl; lia.
Qed.

(** X10: [normalize] never lengthens a text. *)
Theorem normalize_length (text : jsstring) : length (normalize text) ≤ length text.
Proof.
  unfold normalize. etrans; [apply replace_runs_length|].
  destruct (trimStart_split text) as (sp & Hs & _).
  destruct (trimEnd_split (trimStart text)) as (sp' & Hs' & _).
  apply (f_equal length) in Hs, Hs'. rewrite length_app in Hs, Hs'.
  unfold trim. lia.
Qed.

(** ** handler, further *)

Lemma truthy_string_inv A (s : jsstring) : truthy A (VString s) = true → s ≠ [].
Proof. by destruct s. Qed.

Lemma string_or_not A (v : js_value A) : (∃ s, v = VString s) ∨ (∀ s, v ≠ VString s).
Proof. destruct v; eauto; right; by intros s. Qed.

Lemma normalize_value_not_string A (v : js_value A) :
  (∀ s, v ≠ VString s) → normalize_value A v = Throw "text.trim is not a function".
Proof. intros H. destruct v; try done. by destruct (H s). Qed.

Section HandlerFurther.
Context (A : JSNumber) (Extractor Tensor : Type).
Context (pipeline : nat → result Extractor).
Context (run_model : Extractor → jsstring → jsstring → result (Tensor * Tensor)).
Context (cos_sim : Tensor → Tensor → num A).
Context (toLowerCase : jsstring → jsstring).

Local Abbreviation handle :=
  (handler A Extractor Tensor pipeline run_model cos_sim toLowerCase).
Local Abbreviation outcome_of :=
  (outcome A Extractor Tensor pipeline run_model cos_sim toLowerCase).
Local Abbreviation post u c thr :=
  {| method := POST;
     req_body := Some {| userAnswer := u; correctAnswer := c; threshold := thr |} |}.

Lemma getExtractor_cases (w : world Extractor) :
  (∃ e, extractor Extractor w = Some e ∧
        getExtractor Extractor pipeline w = Some (Ok e, w)) ∨
  (∃ e, extractor Extractor w = None ∧
        pipeline (pipeline_loads Extractor w) = Ok e ∧
        getExtractor Extractor pipeline w
        = Some (Ok e, {| extractor := Some e;
                         pipeline_loads := S (pipeline_loads Extractor w);
                         provider_calls := provider_calls Extractor w |})) ∨
  (∃ msg, extractor Extractor w = None ∧
          pipeline (pipeline_loads Extractor w) = Throw msg ∧
          getExtractor Extractor pipeline w
          = Some (Throw msg, {| extractor := None;
                                pipeline_loads := S (pipeline_loads Extractor w);
                                provider_calls := provider_calls Extractor w |})).
Proof.
  unfold getExtractor. destruct (extractor Extractor w) as [e|] eqn:He.
  - left. by exists e.
  - right. destruct (pipeline (pipeline_loads Extractor w)) as [e|msg].
    + left. by exists e.
    + right. by exists msg.
Qed.

(** Every request is answered, in one of the nine ways. *)
Lemma handle_outcome req w :
  ∃ resp w', handle req w = Some (resp, w') ∧ outcome_of req w resp w'.
Proof.
  unfold handler. destruct (method A req) eqn:Hm.
  - eexists _, _. split; [done|]. by apply out_preflight.
  - destruct (req_body A req) as [b|] eqn:Hb.
    2:{ eexists _, _. split; [done|]. by apply out_no_body. }
    unfold score.
    destruct (truthy A (userAnswer A b)) eqn:Hu; cbn [negb orb].
    2:{ eexists _, _. split; [done|]. eapply out_missing; eauto. }
    destruct (truthy A (correctAnswer A b)) eqn:Hc; cbn [negb orb].
    2:{ eexists _, _. split; [done|]. eapply out_missing; eauto. }
    unfold mbind, M_bind, lift.
    destruct (string_or_not A (userAnswer A b)) as [[u Eu]|Hnu].
    2:{ rewrite (normalize_value_not_string A _ Hnu).
        eexists _, _. split; [done|]. eapply out_not_string; eauto. }
    destruct (string_or_not A (correctAnswer A b)) as [[c Ec]|Hnc].
    2:{ rewrite (normalize_value_not_string A _ Hnc), Eu. cbn [normalize_value].
        eexists _, _. split; [done|]. eapply out_not_string; eauto. }
    rewrite Eu in Hu |- *. rewrite Ec in Hc |- *.
    apply truthy_string_inv in Hu, Hc. cbn [normalize_value].
    case_bool_decide as Heq.
    { eexists _, _. split; [done|]. eapply out_exact; eauto. }
    destruct (getExtractor Extractor pipeline w) as [[[e|msg] w1]|] eqn:Hg.
    3:{ exfalso. destruct (getExtractor_cases w) as [(? & _ & H)|[(? & _ & _ & H)|(? & _ & _ & H)]];
          congruence. }
    2:{ eexists _, _. split; [done|]. eapply out_load_failed; eauto. }
    unfold call_model. destruct (run_model e (normalize u) (normalize c)) as [out|msg] eqn:Hr.
    2:{ eexists _, _. split; [done|]. eapply out_model_failed; eauto. }
    destruct (jaroWinkler_total A (toLowerCase (normalize u)) (toLowerCase (normalize c)))
      as [jaroScore Hjw].
    unfold returning. rewrite Hjw. eexists _, _. split; [done|].
    eapply out_scored; eauto.
  - eexists _, _. split; [done|]. by apply out_method.
Qed.

Lemma handle_inv req w resp w' :
  handle req w = Some (resp, w') → outcome_of req w resp w'.
Proof.
  intros H. destruct (handle_outcome req w) as (r & w1 & Hr & Ho). congruence.
Qed.

(** X11: every request is answered, whatever the provider does: with the
    four CORS headers, and with 200 and no content for OPTIONS, 200 and a
    decision, or an error body under 405 (another method), 400 or 500 (a
    POST; the 500 carries a message). *)
Theorem handler_always_answers req w :
  ∃ resp w',
    handle req w = Some (resp, w') ∧
    headers A resp = cors_headers ∧
    match content A resp with
    | NoContent => status A resp = 200 ∧ method A req = OPTIONS
    | DecisionBody _ => status A resp = 200 ∧ method A req = POST
    | ErrorBody _ m =>
        (status A resp = 405 ∧ method A req = OtherMethod ∧ m = None) ∨
        (status A resp = 400 ∧ method A req = POST ∧ m = None) ∨
        (status A resp = 500 ∧ method A req = POST ∧ is_Some m)
    end.
Proof.
  destruct (handle_outcome req w) as (resp & w' & Hrun & Ho).
  exists resp, w'. split; [done|].
  destruct Ho; (split; [done|]); cbn [content respond internal_error status];
    eauto 10.
Qed.

(** X12: what a request does to the world. It loads the model at most
    once and calls the provider at most once, on the normalized answers in
    their own case; and it touches the world only when it is a POST of two
    non-empty strings whose normalized, lower-cased forms differ. *)
Theorem request_effects req w resp w' :
  handle req w = Some (resp, w') →
  pipeline_loads Extractor w ≤ pipeline_loads Extractor w'
    ≤ S (pipeline_loads Extractor w) ∧
  (provider_calls Extractor w' = provider_calls Extractor w ∨
   ∃ b u c, req_body A req = Some b ∧
     userAnswer A b = VString u ∧ correctAnswer A b = VString c ∧
     provider_calls Extractor w'
     = provider_calls Extractor w ++ [(normalize u, normalize c)]) ∧
  (w' ≠ w →
   method A req = POST ∧
   ∃ b u c, req_body A req = Some b ∧
     userAnswer A b = VString u ∧ correctAnswer A b = VString c ∧
     u ≠ [] ∧ c ≠ [] ∧
     toLowerCase (normalize u) ≠ toLowerCase (normalize c)).
Proof.
  intros Hrun. apply handle_inv in Hrun.
  assert (∀ r w1, getExtractor Extractor pipeline w = Some (r, w1) →
            pipeline_loads Extractor w ≤ pipeline_loads Extractor w1
              ≤ S (pipeline_loads Extractor w) ∧
            provider_calls Extractor w1 = provider_calls Extractor w) as Hget.
  { intros r w1 H.
    destruct (getExtractor_cases w) as [(? & _ & H')|[(? & _ & _ & H')|(? & _ & _ & H')]];
      rewrite H' in H; injection H as <- <-; simpl; (split; [lia|done]). }
  destruct Hrun as [| | | | | |b u c msg w1 ??????? Hg|b u c e w1 msg ??????? Hg ?
                    |b u c e w1 out jaroScore ??????? Hg ??];
    try (split; [lia|]; split; [by left|done]).
  - destruct (Hget _ _ Hg) as [? ?]. split; [done|]. split; [by left|].
    intros _. split; [done|]. by exists b, u, c.
  - destruct (Hget _ _ Hg) as [? Hc]. split; [done|]. split.
    + right. exists b, u, c. simpl. by rewrite Hc.
    + intros _. split; [done|]. by exists b, u, c.
  - destruct (Hget _ _ Hg) as [? Hc]. split; [done|]. split.
    + right. exists b, u, c. simpl. by rewrite Hc.
    + intros _. split; [done|]. by exists b, u, c.
Qed.

(** X13: once the model is cached, no request loads it again or replaces
    it. *)
Theorem cache_kept req (w w' : world Extractor) resp e :
  extractor Extractor w = Some e →
  handle req w = Some (resp, w') →
  extractor Extractor w' = Some e ∧
  pipeline_loads Extractor w' = pipeline_loads Extractor w.
Proof.
  intros He Hrun. apply handle_inv in Hrun.
  assert (∀ r w1, getExtractor Extractor pipeline w = Some (r, w1) → w1 = w) as Hget.
  { intros r w1. unfold getExtractor. rewrite He. by intros [= _ <-]. }
  destruct Hrun as [| | | | | |b u c msg w1 ??????? Hg|b u c e1 w1 msg ??????? Hg ?
                    |b u c e1 w1 out jaroScore ??????? Hg ??];
    try done; rewrite (Hget _ _ Hg); done.
Qed.

(** X14: when the model cannot be loaded, a request that needs it is
    answered 500 with the message of the failure; the provider is not
    called and the cache stays empty, so the next request loads again. *)
Theorem load_failure_not_cached (u c : jsstring) thr w msg :
  u ≠ [] → c ≠ [] →
  toLowerCase (normalize u) ≠ toLowerCase (normalize c) →
  extractor Extractor w = None →
  pipeline (pipeline_loads Extractor w) = Throw msg →
  handle (post (VString u) (VString c) thr) w
  = Some (respond A 500 (ErrorBody "Internal server error" (Some msg)),
          {| extractor := None;
             pipeline_loads := S (pipeline_loads Extractor w);
             provider_calls := provider_calls Extractor w |}).
Proof.
  intros Hu Hc Hne He Hp. unfold handler, score.
  cbn [method req_body userAnswer correctAnswer].
  rewrite !truthy_string by done. cbn [negb orb normalize_value].
  unfold mbind, M_bind, lift. rewrite bool_decide_false by done.
  unfold getExtractor. by rewrite He, Hp.
Qed.

(** X15: when the call of the model throws, the request is answered 500
    with the message of the provider, and no decision is made. *)
Theorem model_failure_is_500 (u c : jsstring) thr w e w1 msg :
  u ≠ [] → c ≠ [] →
  toLowerCase (normalize u) ≠ toLowerCase (normalize c) →
  getExtractor Extractor pipeline w = Some (Ok e, w1) →
  run_model e (normalize u) (normalize c) = Throw msg →
  handle (post (VString u) (VString c) thr) w
  = Some (respond A 500 (ErrorBody "Internal server error" (Some msg)),
          logged Extractor w1 (normalize u) (normalize c)).
Proof.
  intros Hu Hc Hne Hg Hr. unfold handler, score.
  cbn [method req_body userAnswer correctAnswer].
  rewrite !truthy_string by done. cbn [negb orb normalize_value].
  unfold mbind, M_bind, lift. rewrite bool_decide_false by done.
  rewrite Hg. unfold call_model. by rewrite Hr.
Qed.

(** X16: an answer that is truthy but not a string (a number, [true], an
    object) passes the presence test and makes [normalize] throw: the
    request is answered 500, not 400, and the world is left as it was. *)
Theorem non_string_answer_is_500 (b : body A) w :
  truthy A (userAnswer A b) = true → truthy A (correctAnswer A b) = true →
  (∀ s, userAnswer A b ≠ VString s) ∨ (∀ s, correctAnswer A b ≠ VString s) →
  handle {| method := POST; req_body := Some b |} w
  = Some (respond A 500
            (ErrorBody "Internal server error" (Some "text.trim is not a function"%string)), w).
Proof.
  intros Hu Hc Hns. unfold handler, score. cbn [method req_body].
  rewrite Hu, Hc. cbn [negb orb]. unfold mbind, M_bind, lift.
  destruct Hns as [Hn|Hn].
  - by rewrite (normalize_value_not_string A _ Hn).
  - rewrite (normalize_value_not_string A _ Hn).
    destruct (string_or_not A (userAnswer A b)) as [[u ->]|Hnu]; [done|].
    by rewrite (normalize_value_not_string A _ Hnu).
Qed.

(** X17: two answers of whitespace only (and not empty) count as an exact
    match: the request is answered [isCorrect = true] with all scores 1.0,
    and the provider is not called. *)
Theorem blank_answers_match (u c : jsstring) thr w :
  u ≠ [] → c ≠ [] → blank u → blank c →
  handle (post (VString u) (VString c) thr) w
  = Some (respond A 200 (DecisionBody (exact_match A)), w).
Proof.
  intros Hu Hc Bu Bc. unfold handler, score.
  cbn [method req_body userAnswer correctAnswer].
  rewrite !truthy_string by done. cbn [negb orb normalize_value].
  unfold mbind, M_bind, lift.
  rewrite !normalize_unwords.
  rewrite (proj2 (words_nil_blank u) Bu), (proj2 (words_nil_blank c) Bc).
  by rewrite bool_decide_true.
Qed.

(** X18: the answers count through their words only: two requests whose
    non-empty answers have the same words, whatever the whitespace around
    and between them, get the same response and leave the same world. *)
Theorem same_words_same_answer (u u' c c' : jsstring) thr w :
  u ≠ [] → u' ≠ [] → c ≠ [] → c' ≠ [] →
  words u = words u' → words c = words c' →
  handle (post (VString u) (VString c) thr) w
  = handle (post (VString u') (VString c') thr) w.
Proof.
  intros Hu Hu' Hc Hc' Wu Wc.
  unfold handler, score. cbn [method req_body userAnswer correctAnswer threshold].
  rewrite !truthy_string by done. cbn [negb orb normalize_value].
  by rewrite !normalize_unwords, Wu, Wc.
Qed.
End HandlerFurther.

(** ** server.js *)

Section ServerProperties.
Context (A : JSNumber) (Extractor Tensor : Type).
Context (pipeline : nat → result Extractor).
Context (run_model : Extractor → jsstring → jsstring → result (Tensor * Tensor)).
Context (cos_sim : Tensor → Tensor → num A).
Context (toLowerCase : jsstring → jsstring).

Local Abbreviation route :=
  (compare_route A Extractor Tensor pipeline run_model cos_sim toLowerCase).


Lemma route_warm (b : body A) w r w2 e :
  extractor Extractor w = Some e → route b w = Some (r, w2) →
  extractor Extractor w2 = Some e ∧
  pipeline_loads Extractor w2 = pipeline_loads Extractor w.
Proof.
  intros He. unfold compare_route.
  destruct (_ || _); [by intros [= _ <-]|]. unfold mbind, M_bind, lift.
  destruct (normalize_value A (userAnswer A b)) as [nu|]; [|by intros [= _ <-]].
  destruct (normalize_value A (correctAnswer A b)) as [nc|]; [|by intros [= _ <-]].
  case_bool_decide; [by intros [= _ <-]|].
  unfold getExtractor. rewrite He. unfold call_model.
  destruct (run_model e nu nc) as [out|msg]; [|by intros [= _ <-]].
  unfold returning. destruct (jaroWinkler A _ _); [|done]. by intros [= _ <-].
Qed.

(** X20: the model is loaded ahead of the first request. On a server that
    starts cold and whose model loads, the health route reports
    [modelLoaded = false] before the [listen] callback and [true] after
    it, and no compare request loads the model again or unloads it. *)
Theorem preloaded_server (w : world Extractor) (e : Extractor) :
  extractor Extractor w = None →
  pipeline (pipeline_loads Extractor w) = Ok e →
  health A Extractor w = {| code := 200;
                            json := HealthJson "ok" "Answer Comparison API" false |} ∧
  let w1 := listen Extractor pipeline w in
  health A Extractor w1 = {| code := 200;
                             json := HealthJson "ok" "Answer Comparison API" true |} ∧
  pipeline_loads Extractor w1 = S (pipeline_loads Extractor w) ∧
  ∀ b r w2, route b w1 = Some (r, w2) →
    pipeline_loads Extractor w2 = pipeline_loads Extractor w1 ∧
    health A Extractor w2 = {| code := 200;
                               json := HealthJson "ok" "Answer Comparison API" true |}.
Proof.
  intros He Hp. unfold health at 1. rewrite He. split; [done|]. cbv zeta.
  assert (listen Extractor pipeline w
          = {| extractor := Some e; pipeline_loads := S (pipeline_loads Extractor w);
               provider_calls := provider_calls Extractor w |}) as ->.
  { unfold listen, getExtractor. by rewrite He, Hp. }
  do 2 (split; [done|]). intros b r w2 Hr.
  assert (extractor Extractor w2 = Some e ∧
          pipeline_loads Extractor w2 = S (pipeline_loads Extractor w)) as [He2 Hl2].
  { refine (route_warm b _ r w2 e _ Hr). reflexivity. }
  split; [done|]. unfold health. by rewrite He2.
Qed.
End ServerProperties.

Lemma preloaded_server_witness :
  health binary64 unit cold_start
  = {| code := 200; json := HealthJson "ok" "Answer Comparison API" false |} ∧
  health binary64 unit (listen unit stub_pipeline cold_start)
  = {| code := 200; json := HealthJson "ok" "Answer Comparison API" true |}.
Proof.
  destruct (preloaded_server binary64 unit unit stub_pipeline stub_model
              (@stub_cos_sim binary64 1%float) ascii_lower cold_start tt)
    as (Hcold & Hwarm & _); [reflexivity|reflexivity|].
  split; [exact Hcold|exact Hwarm].
Defined.

(** ** The threshold *)

Lemma SFleb_trans (x y z : spec_float) :
  SFleb x y = true → SFleb y z = true → SFleb x z = true.
Proof.
  unfold SFleb, SFcompare.
  destruct x as [sx|sx| |sx mx ex], y as [sy|sy| |sy my ey], z as [sz|sz| |sz mz ez];
    try done;
    try (destruct sx; try done); try (destruct sy; try done); try (destruct sz; try done).
  all: rewrite ?Pos.compare_cont_spec; simpl.
  all: destruct (Z.compare_spec ex ey), (Z.compare_spec ey ez), (Z.compare_spec ex ez);
    try done; try lia; subst.
  all: try (destruct (Pos.compare_spec mx my), (Pos.compare_spec my mz),
                     (Pos.compare_spec mx mz); simpl; try done; try lia).
Qed.

Lemma float_leb_trans (x y z : float) :
  PrimFloat.leb x y = true → PrimFloat.leb y z = true → PrimFloat.leb x z = true.
Proof. rewrite !FloatAxioms.leb_spec. apply SFleb_trans. Qed.

(** X21: on binary64, lowering the threshold never turns an accepted answer
    into a rejected one: a request accepted under a threshold is accepted
    under every lower threshold, with the same scores, the same confidence
    and the same effect on the world. *)
Theorem lower_threshold_keeps_acceptance (Extractor Tensor : Type)
    (pipeline : nat → result Extractor)
    (run_model : Extractor → jsstring → jsstring → result (Tensor * Tensor))
    (cos_sim : Tensor → Tensor → float) (toLowerCase : jsstring → jsstring)
    (u c : js_value binary64) (t t' : float) w resp w' d :
  handler binary64 Extractor Tensor pipeline run_model cos_sim toLowerCase
    {| method := POST;
       req_body := Some {| userAnswer := u; correctAnswer := c; threshold := Some t |} |} w
  = Some (resp, w') →
  content binary64 resp = DecisionBody d →
  d_isCorrect binary64 d = true →
  PrimFloat.leb t' t = true →
  ∃ d',
    handler binary64 Extractor Tensor pipeline run_model cos_sim toLowerCase
      {| method := POST;
         req_body := Some {| userAnswer := u; correctAnswer := c; threshold := Some t' |} |} w
    = Some (respond binary64 200 (DecisionBody d'), w') ∧
    d_isCorrect binary64 d' = true ∧
    d_scores binary64 d' = d_scores binary64 d ∧
    d_confidence binary64 d' = d_confidence binary64 d.
Proof.
  intros Hrun Hd Hok Hle. apply handle_inv in Hrun.
  destruct Hrun as [| | | | |b u0 c0 _ Hb Hu Hc Hu0 Hc0 Heq| |
                    |b u0 c0 e w1 out jaroScore _ Hb Hu Hc Hu0 Hc0 Hne Hg Hr Hjw];
    try discriminate Hd.
  - injection Hd as <-. injection Hb as <-. simpl in Hu, Hc. subst u c.
    exists (exact_match binary64). split; [by apply fast_path|done].
  - injection Hd as <-. injection Hb as <-. simpl in Hu, Hc. subst u c.
    cbn [threshold default] in Hok |- *.
    exists (scored binary64 (cos_sim out.1 out.2) jaroScore t').
    split; [|split; [|done]].
    + unfold handler, score. cbn [method req_body userAnswer correctAnswer threshold].
      rewrite !truthy_string by done. cbn [negb orb normalize_value].
      unfold mbind, M_bind, lift. rewrite bool_decide_false by done.
      rewrite Hg. unfold call_model. rewrite Hr. unfold returning. by rewrite Hjw.
    + unfold scored in Hok |- *. cbn [d_isCorrect nge binary64] in Hok |- *.
      by apply (float_leb_trans t' t).
Qed.

Lemma lower_threshold_keeps_acceptance_witness :
  ∃ d',
    stub_handler 1%float (post_answers "ab" "cd" (Some 0.5%float)) cold_start
    = Some (respond binary64 200 (DecisionBody d'), sample_world) ∧
    d_isCorrect binary64 d' = true ∧
    d_scores binary64 d' = d_scores binary64 sample_decision ∧
    d_confidence binary64 d' = d_confidence binary64 sample_decision.
Proof.
  apply (lower_threshold_keeps_acceptance unit unit stub_pipeline stub_model
           (@stub_cos_sim binary64 1%float) ascii_lower
           (VString (js "ab")) (VString (js "cd")) (lit_0_8 binary64) 0.5%float
           cold_start (respond binary64 200 (DecisionBody sample_decision)) sample_world
           sample_decision).
  - vm_compute. reflexivity.
  - reflexivity.
  - reflexivity.
  - vm_compute. reflexivity.
Defined.

(** ** The further properties at concrete requests *)

Lemma request_effects_witness :
  pipeline_loads unit cold_start ≤ pipeline_loads unit sample_world
    ≤ S (pipeline_loads unit cold_start) ∧
  method binary64 (post_answers "ab" "cd" (Some (lit_0_8 binary64))) = POST.
Proof.
  destruct (request_effects binary64 unit unit stub_pipeline stub_model
              (@stub_cos_sim binary64 1%float) ascii_lower
              (post_answers "ab" "cd" (Some (lit_0_8 binary64))) cold_start
              (respond binary64 200 (DecisionBody sample_decision)) sample_world)
    as (Hloads & _ & Hchanged).
  - vm_compute. reflexivity.
  - split; [exact Hloads|]. apply Hchanged. discriminate.
Defined.

Lemma cache_kept_witness :
  extractor unit (logged unit warm (js "ab") (js "cd")) = Some tt ∧
  pipeline_loads unit (logged unit warm (js "ab") (js "cd")) = pipeline_loads unit warm.
Proof.
  apply (cache_kept binary64 unit unit failing_pipeline stub_model
           (@stub_cos_sim binary64 1%float) ascii_lower
           (post_answers "ab" "cd" None) warm _
           (respond binary64 200
              (DecisionBody (scored binary64 1%float 0%float (lit_0_75 binary64))))
           tt).
  - reflexivity.
  - vm_compute. reflexivity.
Defined.

Lemma load_failure_not_cached_witness :
  handler binary64 unit unit failing_pipeline stub_model (@stub_cos_sim binary64 1%float)
    ascii_lower (post_answers "ab" "cd" None) cold_start
  = Some (respond binary64 500 (ErrorBody "Internal server error" (Some "model not ready"%string)),
          {| extractor := None; pipeline_loads := 1; provider_calls := [] |}).
Proof.
  apply (load_failure_not_cached binary64 unit unit failing_pipeline stub_model
           (@stub_cos_sim binary64 1%float) ascii_lower (js "ab") (js "cd") None cold_start).
  - discriminate.
  - discriminate.
  - discriminate.
  - reflexivity.
  - reflexivity.
Defined.

Lemma model_failure_is_500_witness :
  handler binary64 unit unit stub_pipeline failing_model (@stub_cos_sim binary64 1%float)
    ascii_lower (post_answers "ab" "cd" None) warm
  = Some (respond binary64 500 (ErrorBody "Internal server error" (Some "inference failed"%string)),
          logged unit warm (js "ab") (js "cd")).
Proof.
  apply (model_failure_is_500 binary64 unit unit stub_pipeline failing_model
           (@stub_cos_sim binary64 1%float) ascii_lower (js "ab") (js "cd") None warm tt).
  - discriminate.
  - discriminate.
  - discriminate.
  - reflexivity.
  - reflexivity.
Defined.

Lemma non_string_answer_is_500_witness :
  stub_handler 1%float
    {| method := POST;
       req_body := Some {| userAnswer := @VNumber binary64 5%float;
                           correctAnswer := VString (js "5");
                           threshold := None |} |} cold_start
  = Some (respond binary64 500
            (ErrorBody "Internal server error" (Some "text.trim is not a function"%string)),
          cold_start).
Proof.
  apply (non_string_answer_is_500 binary64 unit unit stub_pipeline stub_model
           (@stub_cos_sim binary64 1%float) ascii_lower
           {| userAnswer := @VNumber binary64 5%float; correctAnswer := VString (js "5");
              threshold := None |} cold_start).
  - reflexivity.
  - reflexivity.
  - left. intros s. discriminate.
Defined.

Lemma blank_answers_match_witness :
  stub_handler 1%float (post_answers " " "   " None) cold_start
  = Some (respond binary64 200 (DecisionBody (exact_match binary64)), cold_start).
Proof.
  apply (blank_answers_match binary64 unit unit stub_pipeline stub_model
           (@stub_cos_sim binary64 1%float) ascii_lower (js " ") (js "   ") None cold_start).
  - discriminate.
  - discriminate.
  - repeat constructor.
  - repeat constructor.
Defined.

Lemma same_words_same_answer_witness :
  stub_handler 1%float (post_answers "New  York" "new york city" None) cold_start
  = stub_handler 1%float (post_answers " New York " "new   york city" None) cold_start.
Proof.
  apply (same_words_same_answer binary64 unit unit stub_pipeline stub_model
           (@stub_cos_sim binary64 1%float) ascii_lower
           (js "New  York") (js " New York ") (js "new york city") (js "new   york city")
           None cold_start).
  - discriminate.
  - discriminate.
  - discriminate.
  - discriminate.
  - reflexivity.
  - reflexivity.
Defined.
